(** * DireDB: the directory data base (src/dire.js)

    A shallow embedding of the [Dire] class and of the part of the
    JavaScript run time it relies on: a heap of arrays and plain objects
    (so that aliasing between the caller and the store is visible), the
    JSON codec, and the directory the collections are persisted to, with
    the paths [path.join] makes (POSIX paths).

    Every method is [async] and is taken as a whole: the calls of a run are
    awaited one after the other, as the tests do.  A method returns the
    world it leaves, together with the outcome of its promise when it can be
    rejected.

    Two things are left to hypotheses rather than modelled.  The prototype
    of [this.data]: the properties are stated for names other than
    [__proto__] ([ordinary]) and, where a name that is not a member is read,
    for a store to whose [__proto__] nothing has been assigned ([intact]).
    And the directories around [directoryPath]: the properties that follow
    a file are stated for names without path separator ([plain]). *)

From Stdlib Require Import ZArith Lia Ascii.
From stdpp Require Import base option list strings gmap.

Set Warnings "-register-all,-clear-no-such-hyp".

Local Open Scope string_scope.
Local Open Scope list_scope.

(** ** JavaScript values, objects and the heap *)

Module Js.

Abbreviation loc := nat.

(** A value is a primitive or a reference to a heap object.  Numbers are
    restricted to integers; functions are not values of the model. *)
Inductive val :=
  | VUndef
  | VNull
  | VBool (b : bool)
  | VNum (z : Z)
  | VStr (s : string)
  | VRef (l : loc).

(** A heap object is an array or a plain object (a record); the members of a
    record are kept in insertion order. *)
Inductive obj :=
  | OArr (elems : list val)
  | ORec (fields : list (string * val)).

(** Objects are never freed: the heap is the list of every object
    allocated so far and a location is an index in it. *)
Abbreviation heap := (list obj).

Definition alloc (o : obj) (h : heap) : loc * heap := (length h, h ++ [o]).

(** ToBoolean. *)
Definition truthy (v : val) : bool :=
  match v with
  | VUndef | VNull => false
  | VBool b => b
  | VNum z => negb (z =? 0)%Z
  | VStr s => negb (String.eqb s "")
  | VRef _ => true
  end.

(** [x || null] *)
Definition or_null (v : val) : val := if truthy v then v else VNull.

(** The elements of [v] when it is an array (Array.isArray). *)
Definition as_array (h : heap) (v : val) : option (list val) :=
  match v with
  | VRef l => match h !! l with Some (OArr vs) => Some vs | _ => None end
  | _ => None
  end.

Definition isArray (h : heap) (v : val) : bool :=
  match as_array h v with Some _ => true | None => false end.

(** Own members of a record. *)
Fixpoint field (k : string) (fs : list (string * val)) : val :=
  match fs with
  | [] => VUndef
  | (k', v) :: fs' => if String.eqb k' k then v else field k fs'
  end.

Fixpoint set_member (k : string) (v : val) (fs : list (string * val))
  : list (string * val) :=
  match fs with
  | [] => [(k, v)]
  | (k', v') :: fs' =>
      if String.eqb k' k then (k, v) :: fs' else (k', v') :: set_member k v fs'
  end.

(** [o.k = v] executed by the caller on an object it holds a reference to. *)
Definition assign (l : loc) (k : string) (v : val) (h : heap) : heap :=
  match h !! l with
  | Some (ORec fs) => <[l := ORec (set_member k v fs)]> h
  | _ => h
  end.

(** Array indices are the canonical decimal numerals. *)
Definition digit (a : Ascii.ascii) : option nat :=
  let n := Ascii.nat_of_ascii a in
  if bool_decide (48 <= n < 58) then Some (n - 48) else None.

Fixpoint digits (acc : nat) (s : string) : option nat :=
  match s with
  | EmptyString => Some acc
  | String a s' =>
      match digit a with
      | Some d => digits (10 * acc + d) s'
      | None => None
      end
  end.

Definition array_index (s : string) : option nat :=
  match s with
  | EmptyString => None
  | String "0"%char EmptyString => Some 0
  | String "0"%char _ => None
  | _ => digits 0 s
  end.

(** [v[k]]: [None] is the TypeError raised on [undefined] and [null].  Only
    own members are looked up: the members inherited from a prototype are
    functions, which read as [undefined] here, but for [__proto__], the
    prototype itself, which is left to hypotheses. *)
Definition get (h : heap) (v : val) (k : string) : option val :=
  match v with
  | VUndef | VNull => None
  | VBool _ | VNum _ => Some VUndef
  | VStr s =>
      if String.eqb k "length" then Some (VNum (Z.of_nat (String.length s)))
      else match array_index k with
           | Some i =>
               match String.get i s with
               | Some a => Some (VStr (String a EmptyString))
               | None => Some VUndef
               end
           | None => Some VUndef
           end
  | VRef l =>
      match h !! l with
      | Some (ORec fs) => Some (field k fs)
      | Some (OArr vs) =>
          if String.eqb k "length" then Some (VNum (Z.of_nat (length vs)))
          else match array_index k with
               | Some i => Some (default VUndef (vs !! i))
               | None => Some VUndef
               end
      | None => Some VUndef
      end
  end.

(** ** JSON *)

Inductive json :=
  | JNull
  | JBool (b : bool)
  | JNum (z : Z)
  | JStr (s : string)
  | JArr (items : list json)
  | JObj (members : list (string * json)).

(** [denotes h v j]: in the heap [h] the value [v] is the JSON value [j],
    member for member and element for element.  Two values are structurally
    equal when they denote the same JSON value. *)
Inductive denotes (h : heap) : val -> json -> Prop :=
  | denotes_null : denotes h VNull JNull
  | denotes_bool b : denotes h (VBool b) (JBool b)
  | denotes_num z : denotes h (VNum z) (JNum z)
  | denotes_str s : denotes h (VStr s) (JStr s)
  | denotes_arr l vs js :
      h !! l = Some (OArr vs) ->
      Forall2 (denotes h) vs js ->
      denotes h (VRef l) (JArr js)
  | denotes_obj l fs ms :
      h !! l = Some (ORec fs) ->
      Forall2 (fun f m => f.1 = m.1 /\ denotes h f.2 m.2) fs ms ->
      denotes h (VRef l) (JObj ms).

(** What [JSON.stringify] makes of a value: it throws (a cycle, or a
    structure nested deeper than the serializer can recurse), it yields
    [undefined], or it yields a text, recorded here as the tree the text
    denotes. *)
Inductive stringified :=
  | SThrow
  | SUndefined
  | SText (j : json).

(** An [undefined] element of an array is written as [null]. *)
Definition stringify_elems (f : val -> stringified)
  : list val -> option (list json) :=
  fix go vs :=
    match vs with
    | [] => Some []
    | v :: vs' =>
        match f v with
        | SThrow => None
        | SUndefined => cons JNull <$> go vs'
        | SText j => cons j <$> go vs'
        end
    end.

(** An [undefined] member of an object is left out. *)
Definition stringify_members (f : val -> stringified)
  : list (string * val) -> option (list (string * json)) :=
  fix go fs :=
    match fs with
    | [] => Some []
    | (k, v) :: fs' =>
        match f v with
        | SThrow => None
        | SUndefined => go fs'
        | SText j => cons (k, j) <$> go fs'
        end
    end.

(** [depth] bounds the nesting the serializer follows; a cyclic structure
    exhausts every bound. *)
Fixpoint stringify (depth : nat) (h : heap) (v : val) : stringified :=
  match v with
  | VUndef => SUndefined
  | VNull => SText JNull
  | VBool b => SText (JBool b)
  | VNum z => SText (JNum z)
  | VStr s => SText (JStr s)
  | VRef l =>
      match depth with
      | O => SThrow
      | S d =>
          match h !! l with
          | Some (OArr vs) =>
              match stringify_elems (stringify d h) vs with
              | Some js => SText (JArr js)
              | None => SThrow
              end
          | Some (ORec fs) =>
              match stringify_members (stringify d h) fs with
              | Some ms => SText (JObj ms)
              | None => SThrow
              end
          | None => SThrow
          end
      end
  end.

(** The objects the serializer goes through when it writes a value. *)
Fixpoint reads (depth : nat) (h : heap) (v : val) : list loc :=
  match depth, v with
  | S d, VRef l =>
      l :: match h !! l with
           | Some (OArr vs) => flat_map (reads d h) vs
           | Some (ORec fs) => flat_map (fun f => reads d h f.2) fs
           | None => []
           end
  | _, _ => []
  end.

(** [JSON.parse] builds the value a document denotes out of fresh objects. *)
Fixpoint revive (j : json) (h : heap) : val * heap :=
  match j with
  | JNull => (VNull, h)
  | JBool b => (VBool b, h)
  | JNum z => (VNum z, h)
  | JStr s => (VStr s, h)
  | JArr js =>
      let '(vs, h1) :=
        (fix go (js : list json) (h : heap) : list val * heap :=
           match js with
           | [] => ([], h)
           | j :: js' =>
               let '(v, h1) := revive j h in
               let '(vs, h2) := go js' h1 in
               (v :: vs, h2)
           end) js h in
      let '(l, h2) := alloc (OArr vs) h1 in
      (VRef l, h2)
  | JObj ms =>
      let '(fs, h1) :=
        (fix go (ms : list (string * json)) (h : heap)
           : list (string * val) * heap :=
           match ms with
           | [] => ([], h)
           | (k, j) :: ms' =>
               let '(v, h1) := revive j h in
               let '(fs, h2) := go ms' h1 in
               ((k, v) :: fs, h2)
           end) ms h in
      let '(l, h2) := alloc (ORec fs) h1 in
      (VRef l, h2)
  end.

Fixpoint revive_elems (js : list json) (h : heap) : list val * heap :=
  match js with
  | [] => ([], h)
  | j :: js' =>
      let '(v, h1) := revive j h in
      let '(vs, h2) := revive_elems js' h1 in
      (v :: vs, h2)
  end.

Fixpoint revive_members (ms : list (string * json)) (h : heap)
  : list (string * val) * heap :=
  match ms with
  | [] => ([], h)
  | (k, j) :: ms' =>
      let '(v, h1) := revive j h in
      let '(fs, h2) := revive_members ms' h1 in
      ((k, v) :: fs, h2)
  end.

Fixpoint nesting (j : json) : nat :=
  match j with
  | JArr js => S (foldr (fun j n => Nat.max (nesting j) n) O js)
  | JObj ms => S (foldr (fun m n => Nat.max (nesting m.2) n) O ms)
  | _ => O
  end.

End Js.

(** ** The directory *)

Module Fs.

(** A file is recorded by what [JSON.parse] makes of its text: a syntax
    error, or the document the text denotes. *)
Inductive content :=
  | Unparsable
  | Document (j : Js.json).

(** The files at and below [directoryPath], each under its path relative to
    [directoryPath] as [path.join] leaves it.  A sub-directory shows as the
    first segment of the paths below it (an empty one as its own path
    followed by the separator), and a path that starts with [..] is outside
    the directory. *)
Abbreviation directory := (list (string * content)).

Fixpoint has_sep (s : string) : bool :=
  match s with
  | EmptyString => false
  | String a s' => Ascii.eqb a "/" || has_sep s'
  end.

(** The segments of a path, and the path of a list of segments. *)
Fixpoint segments (s : string) : list string :=
  match s with
  | EmptyString => [EmptyString]
  | String a s' =>
      if Ascii.eqb a "/" then EmptyString :: segments s'
      else match segments s' with
           | seg :: rest => String a seg :: rest
           | [] => [String a EmptyString]
           end
  end.

Fixpoint unsegments (segs : list string) : string :=
  match segs with
  | [] => EmptyString
  | [seg] => seg
  | seg :: rest => seg +:+ "/" +:+ unsegments rest
  end.

(** One step of [path.normalize], on the segments before [seg] in reverse
    order: an empty segment and [.] are dropped, and [..] takes the segment
    before it away, or stays when there is none to take. *)
Definition resolve (before : list string) (seg : string) : list string :=
  if String.eqb seg "" || String.eqb seg "." then before
  else if String.eqb seg ".." then
    match before with
    | last :: rest => if String.eqb last ".." then seg :: before else rest
    | [] => [seg]
    end
  else seg :: before.

(** [path.join(directoryPath, file)], relative to [directoryPath].  The name
    of the directory itself is not known here, so a path that leaves the
    directory is taken to stay outside of it. *)
Definition join (file : string) : string :=
  unsegments (rev (foldl resolve [] (segments file))).

Fixpoint readFile (f : string) (d : directory) : option content :=
  match d with
  | [] => None
  | (g, c) :: d' => if String.eqb g f then Some c else readFile f d'
  end.

(** [writeFile] replaces the whole content of an existing file and creates
    a missing one. *)
Fixpoint writeFile (f : string) (c : content) (d : directory) : directory :=
  match d with
  | [] => [(f, c)]
  | (g, x) :: d' =>
      if String.eqb g f then (f, c) :: d' else (g, x) :: writeFile f c d'
  end.

Fixpoint unlink (f : string) (d : directory) : directory :=
  match d with
  | [] => []
  | (g, x) :: d' => if String.eqb g f then unlink f d' else (g, x) :: unlink f d'
  end.

Fixpoint first_segment (s : string) : string :=
  match s with
  | EmptyString => EmptyString
  | String a s' =>
      if Ascii.eqb a "/" then EmptyString else String a (first_segment s')
  end.

Fixpoint starts_with (p s : string) : bool :=
  match p, s with
  | EmptyString, _ => true
  | String a p', String b s' => Ascii.eqb a b && starts_with p' s'
  | String _ _, EmptyString => false
  end.

(** The path is a directory: there are paths below it. *)
Definition is_dir (f : string) (d : directory) : bool :=
  existsb (fun e => starts_with (f +:+ "/") e.1) d.

(** An entry of a directory has a name, which is neither [.] nor [..]. *)
Definition entry_name (f : string) : bool :=
  negb (String.eqb f "") && negb (String.eqb f ".")
  && negb (String.eqb f "..").

(** [readdir] is not recursive: it lists the entries of the directory
    itself, files and sub-directories alike, each once. *)
Definition readdir (d : directory) : list string :=
  remove_dups (List.filter entry_name (first_segment <$> d.*1)).

(** [strip_suffix suf s] is [Some x] when [s = x ++ suf]: [s.endsWith(suf)]
    and, for a name without separator, [path.basename(s, suf)]. *)
Fixpoint strip_suffix (suf s : string) : option string :=
  if String.eqb s suf then Some EmptyString
  else match s with
       | EmptyString => None
       | String a s' => String a <$> strip_suffix suf s'
       end.

End Fs.

(** ** The store *)

Module Dire.
Import Js.

(** What [console.error] is called for. *)
Inductive failure :=
  | LoadError
  | SaveError
  | UnlinkError.

(** An instance of [Dire] together with the world it runs in: the heap its
    collections live in, the directory behind [directoryPath] and the
    console.  [data] holds the own members of [this.data], whose prototype
    is taken to be [Object.prototype] throughout: the name [__proto__], an
    assignment to which replaces the prototype, is outside of what is
    modelled, and the properties below are stated for the other names.
    [modifiedCollections] is a [Set]: it has no duplicates and is iterated
    in insertion order. *)
Record world := World {
  heap : Js.heap;
  data : gmap string val;
  modifiedCollections : list string;
  isLoaded : bool;
  files : Fs.directory;
  console : list failure
}.

(** A promise is fulfilled with a value or rejected (here always by a
    TypeError). *)
Inductive outcome (A : Type) :=
  | Fulfilled (a : A)
  | Rejected.
Arguments Fulfilled {A} a.
Arguments Rejected {A}.

(** The callbacks.  A filter function reads the item it is given.  An
    update function is taken by what it does to the members of the record
    it is given, as [user => { user.age += 1 }] does: update functions that
    write to other objects, or throw, are not covered. *)
Abbreviation predicate := (Js.heap -> val -> bool).
Abbreviation mutator := (list (string * val) -> list (string * val)).

(** [path.join(this.directoryPath, `${collectionName}.json`)] *)
Definition file_of (collectionName : string) : string :=
  Fs.join (collectionName +:+ ".json").

(** The names [this.data] keeps as members of its own: all but [__proto__]. *)
Definition ordinary (collectionName : string) : bool :=
  negb (String.eqb collectionName "__proto__").

(** A plain name is an ordinary one without path separator: its file is the
    entry [collectionName.json] of the directory itself. *)
Definition plain (collectionName : string) : bool :=
  negb (Fs.has_sep collectionName) && ordinary collectionName.

(** [this.data[collectionName]], for an ordinary name.  A member inherited
    from [Object.prototype] is a function and reads as [undefined] here: the
    store does not tell the two apart, as neither is an array and
    [JSON.stringify] leaves both out. *)
Definition collection (w : world) (collectionName : string) : val :=
  default VUndef (data w !! collectionName).

(** Nothing has been assigned to [this.data.__proto__]: the prototype of
    [this.data] is the one it was created with, and a name that is not a
    member of [data] reads as [undefined] or as an inherited function. *)
Definition intact (w : world) : Prop := data w !! "__proto__" = None.

(** [new Dire(directoryPath)] over the directory of [w].  The autosave timer
    is left out, and so is the load the constructor starts without awaiting
    it: callers await [load] themselves. *)
Definition new (w : world) : world :=
  {| heap := heap w; data := ∅; modifiedCollections := []; isLoaded := false;
     files := files w; console := console w |}.

(** The same in a process of its own, whose heap is [h]. *)
Definition new_in (h : Js.heap) (w : world) : world :=
  {| heap := h; data := ∅; modifiedCollections := []; isLoaded := false;
     files := files w; console := console w |}.

Definition set_add (x : string) (s : list string) : list string :=
  if decide (x ∈ s) then s else s ++ [x].

Definition markCollectionAsModified (collectionName : string) (w : world)
  : world :=
  {| heap := heap w; data := data w;
     modifiedCollections := set_add collectionName (modifiedCollections w);
     isLoaded := isLoaded w; files := files w; console := console w |}.

Section Environment.

(** The paths on which [fs.writeFile] rejects whatever is there (a missing
    directory, a disk that is full), and the nesting [JSON.stringify] can
    follow. *)
Variable write_fails : string -> bool.
Variable depth : nat.

(** [JSON.stringify({ [collectionName]: value })]; [None] when it throws. *)
Definition wrapper (h : Js.heap) (collectionName : string) (value : val)
  : option json :=
  match stringify depth h value with
  | SThrow => None
  | SUndefined => Some (JObj [])
  | SText j => Some (JObj [(collectionName, j)])
  end.

(** The loop of [save]: [false] when an iteration threw, which leaves the
    loop with the files written so far.  [fs.writeFile] also rejects on a
    path that is a directory. *)
Fixpoint flush (names : list string) (h : Js.heap) (d : gmap string val)
  (fs : Fs.directory) : Fs.directory * bool :=
  match names with
  | [] => (fs, true)
  | collectionName :: rest =>
      match wrapper h collectionName (default VUndef (d !! collectionName)) with
      | None => (fs, false)
      | Some j =>
          if write_fails (file_of collectionName)
             || Fs.is_dir (file_of collectionName) fs
          then (fs, false)
          else flush rest h d
                 (Fs.writeFile (file_of collectionName) (Fs.Document j) fs)
      end
  end.

Definition save (w : world) : world :=
  let '(fs, ok) :=
    flush (modifiedCollections w) (heap w) (data w) (files w) in
  if ok then
    {| heap := heap w; data := data w; modifiedCollections := [];
       isLoaded := isLoaded w; files := fs; console := console w |}
  else
    {| heap := heap w; data := data w;
       modifiedCollections := modifiedCollections w;
       isLoaded := isLoaded w; files := fs;
       console := console w ++ [SaveError] |}.

(** The loop of [load].  The directory is taken to be there and listed,
    and a file that is there to be read: [fs.readFile] rejects on an entry
    that is not a file (a sub-directory). *)
Fixpoint load_files (names : list string) (fs : Fs.directory) (h : Js.heap)
  (d : gmap string val) : Js.heap * gmap string val * bool :=
  match names with
  | [] => (h, d, true)
  | file :: rest =>
      match Fs.strip_suffix ".json" file with
      | None => load_files rest fs h d
      | Some collectionName =>
          match Fs.readFile (Fs.join file) fs with
          | Some (Fs.Document j) =>
              let '(fileData, h1) := revive j h in
              match get h1 fileData collectionName with
              | Some v => load_files rest fs h1 (<[collectionName := v]> d)
              | None => (h1, d, false)
              end
          | _ => (h, d, false)
          end
      end
  end.

Definition load (w : world) : world :=
  let '(h, d, ok) :=
    load_files (Fs.readdir (files w)) (files w) (heap w) (data w) in
  if ok then
    {| heap := h; data := d; modifiedCollections := modifiedCollections w;
       isLoaded := true; files := files w; console := console w |}
  else
    {| heap := h; data := d; modifiedCollections := modifiedCollections w;
       isLoaded := isLoaded w; files := files w;
       console := console w ++ [LoadError] |}.

End Environment.

(** [items = []] *)
Definition add (collectionName : string) (items : option val) (w : world)
  : world :=
  let '(v, h) :=
    match items with
    | None | Some VUndef =>
        let '(l, h) := alloc (OArr []) (heap w) in (VRef l, h)
    | Some v => (v, heap w)
    end in
  markCollectionAsModified collectionName
    {| heap := h; data := <[collectionName := v]> (data w);
       modifiedCollections := modifiedCollections w; isLoaded := isLoaded w;
       files := files w; console := console w |}.

(** [fs.unlink] rejects when there is no such file, as it does on a
    sub-directory; a file that is there is taken to be deleted. *)
Definition drop (collectionName : string) (w : world) : world :=
  let d := delete collectionName (data w) in
  match Fs.readFile (file_of collectionName) (files w) with
  | Some _ =>
      {| heap := heap w; data := d;
         modifiedCollections := modifiedCollections w;
         isLoaded := isLoaded w;
         files := Fs.unlink (file_of collectionName) (files w);
         console := console w |}
  | None =>
      {| heap := heap w; data := d;
         modifiedCollections := modifiedCollections w;
         isLoaded := isLoaded w; files := files w;
         console := console w ++ [UnlinkError] |}
  end.

(** [collection.push(item)]; [None] when [collection] has no [push]. *)
Definition push (c : val) (item : val) (h : Js.heap) : option Js.heap :=
  match c with
  | VRef l =>
      match h !! l with
      | Some (OArr vs) => Some (<[l := OArr (vs ++ [item])]> h)
      | _ => None
      end
  | _ => None
  end.

Fixpoint push_all (c : val) (items : list val) (h : Js.heap)
  : option Js.heap :=
  match items with
  | [] => Some h
  | item :: rest =>
      match push c item h with
      | Some h' => push_all c rest h'
      | None => None
      end
  end.

Definition insert (collectionName : string) (items : val) (w : world)
  : outcome unit * world :=
  let c := collection w collectionName in
  let items :=
    match as_array (heap w) items with
    | Some vs => vs
    | None => [items]
    end in
  match push_all c items (heap w) with
  | Some h =>
      (Fulfilled tt,
       markCollectionAsModified collectionName
         {| heap := h; data := data w;
            modifiedCollections := modifiedCollections w;
            isLoaded := isLoaded w; files := files w;
            console := console w |})
  | None => (Rejected, w)
  end.

Definition always : predicate := fun _ _ => true.

(** [updateFunction(item)] *)
Definition mutate (updateFunction : mutator) (item : val) (h : Js.heap)
  : Js.heap :=
  match item with
  | VRef l =>
      match h !! l with
      | Some (ORec fs) => <[l := ORec (updateFunction fs)]> h
      | _ => h
      end
  | _ => h
  end.

Definition update_step (f : predicate) (updateFunction : mutator)
  (h : Js.heap) (item : val) : Js.heap :=
  if f h item then mutate updateFunction item h else h.

Definition update (collectionName : string) (filterFunction : option predicate)
  (updateFunction : mutator) (w : world) : outcome unit * world :=
  match as_array (heap w) (collection w collectionName) with
  | Some items =>
      let f := default always filterFunction in
      (Fulfilled tt,
       markCollectionAsModified collectionName
         {| heap := foldl (update_step f updateFunction) (heap w) items;
            data := data w;
            modifiedCollections := modifiedCollections w;
            isLoaded := isLoaded w; files := files w;
            console := console w |})
  | None => (Rejected, w)
  end.

Definition find (collectionName : string) (filterFunction : option predicate)
  (w : world) : outcome val * world :=
  match as_array (heap w) (collection w collectionName) with
  | Some items =>
      let f := default always filterFunction in
      let '(l, h) := alloc (OArr (List.filter (f (heap w)) items)) (heap w) in
      (Fulfilled (VRef l),
       {| heap := h; data := data w;
          modifiedCollections := modifiedCollections w;
          isLoaded := isLoaded w; files := files w; console := console w |})
  | None => (Rejected, w)
  end.

(** [Array.prototype.find] throws when its argument is not callable, and
    [findOne] has no default for it. *)
Definition findOne (collectionName : string)
  (filterFunction : option predicate) (w : world) : outcome val * world :=
  match as_array (heap w) (collection w collectionName) with
  | Some items =>
      match filterFunction with
      | Some f =>
          (Fulfilled
             (or_null (default VUndef (List.find (f (heap w)) items))), w)
      | None => (Rejected, w)
      end
  | None => (Rejected, w)
  end.

Definition delete (collectionName : string)
  (filterFunction : option predicate) (w : world) : outcome unit * world :=
  match as_array (heap w) (collection w collectionName) with
  | Some items =>
      let f := default always filterFunction in
      let '(l, h) :=
        alloc (OArr (List.filter (fun item => negb (f (heap w) item)) items))
          (heap w) in
      (Fulfilled tt,
       markCollectionAsModified collectionName
         {| heap := h; data := <[collectionName := VRef l]> (data w);
            modifiedCollections := modifiedCollections w;
            isLoaded := isLoaded w; files := files w;
            console := console w |})
  | None => (Rejected, w)
  end.

(** ** Sequences of calls *)

Inductive call :=
  | AddCall (collectionName : string) (items : option val)
  | DropCall (collectionName : string)
  | InsertCall (collectionName : string) (items : val)
  | UpdateCall (collectionName : string) (filterFunction : option predicate)
      (updateFunction : mutator)
  | DeleteCall (collectionName : string) (filterFunction : option predicate)
  | SaveCall
  | LoadCall.

Definition fulfilled {A} (r : outcome A * world) : bool :=
  match r.1 with
  | Fulfilled _ => true
  | Rejected => false
  end.

(** The collection a call is a mutation of. *)
Definition target (c : call) : option string :=
  match c with
  | AddCall n _ | InsertCall n _ | UpdateCall n _ _ | DeleteCall n _ => Some n
  | DropCall _ | SaveCall | LoadCall => None
  end.

(** The name a call is given. *)
Definition name_of (c : call) : option string :=
  match c with
  | AddCall n _ | DropCall n | InsertCall n _ | UpdateCall n _ _
  | DeleteCall n _ => Some n
  | SaveCall | LoadCall => None
  end.

Section Runs.

Variable write_fails : string -> bool.
Variable depth : nat.

Definition exec (c : call) (w : world) : world :=
  match c with
  | AddCall n items => add n items w
  | DropCall n => drop n w
  | InsertCall n items => (insert n items w).2
  | UpdateCall n f u => (update n f u w).2
  | DeleteCall n f => (delete n f w).2
  | SaveCall => save write_fails depth w
  | LoadCall => load w
  end.

Definition run (cs : list call) (w : world) : world :=
  foldl (fun w c => exec c w) w cs.

(** A collection [save] can write: it serializes and its file is accepted. *)
Definition flushable (w : world) (n : string) : bool :=
  match wrapper depth (heap w) n (collection w n) with
  | Some _ =>
      negb (write_fails (file_of n)) && negb (Fs.is_dir (file_of n) (files w))
  | None => false
  end.

Definition flushes (w : world) : bool :=
  forallb (flushable w) (modifiedCollections w).

(** What [save] would write for a collection of the store, and what its
    file holds. *)
Definition image (w : world) (n : string) : option json :=
  match data w !! n with
  | Some v => wrapper depth (heap w) n v
  | None => None
  end.

Definition on_disk (w : world) (n : string) : option json :=
  match Fs.readFile (file_of n) (files w) with
  | Some (Fs.Document j) => Some j
  | _ => None
  end.

(** The collection has changes in memory that its file does not show. *)
Definition unsaved (w : world) (n : string) : Prop :=
  image w n <> on_disk w n.

(** A collection file as [save] writes it for a name: the object whose one
    member is the collection, nested no deeper than the serializer goes, or
    the object without members. *)
Definition canonical (name : string) (c : Fs.content) : bool :=
  match c with
  | Fs.Document (JObj []) => true
  | Fs.Document (JObj [(k, j)]) =>
      String.eqb k name && Nat.leb (nesting j) depth
  | _ => false
  end.

(** The directory is the store's own: every entry with a name in [.json] is
    a file that [save] wrote for an ordinary name. *)
Definition owned (fs : Fs.directory) : bool :=
  forallb
    (fun file =>
       match Fs.strip_suffix ".json" file with
       | None => true
       | Some name =>
           ordinary name && negb (Fs.is_dir file fs) &&
           match Fs.readFile file fs with
           | Some c => canonical name c
           | None => false
           end
       end)
    (Fs.readdir fs).

(** The objects a call writes to in place: [insert] the array of the
    collection, and [update] its records. *)
Definition written (c : call) (w : world) : list val :=
  match c with
  | InsertCall n _ => [collection w n]
  | UpdateCall n _ _ => default [] (as_array (heap w) (collection w n))
  | _ => []
  end.

(** The object [x] is part of the value [v]: the serializer goes through it
    when it writes [v]. *)
Definition part_of (h : Js.heap) (v x : val) : bool :=
  match x with
  | VRef l => bool_decide (l ∈ reads depth h v)
  | _ => false
  end.

(** The call is given a plain name, and no object it writes to in place is
    part of another collection that is not in the modified set. *)
Definition admissible (c : call) (w : world) : bool :=
  match name_of c with
  | Some n =>
      plain n &&
      forallb
        (fun e =>
           String.eqb e.1 n || bool_decide (e.1 ∈ modifiedCollections w)
           || forallb (fun x => negb (part_of (heap w) e.2 x)) (written c w))
        (map_to_list (data w))
  | None => true
  end.

Fixpoint admissible_run (cs : list call) (w : world) : bool :=
  match cs with
  | [] => true
  | c :: cs' => admissible c w && admissible_run cs' (exec c w)
  end.

(** The store is in step with its directory: the names in use are plain,
    the directory is the store's own, and every collection that is not in
    the modified set is in its file as it is in memory. *)
Definition in_step (w : world) : Prop :=
  (forall n, is_Some (data w !! n) -> plain n = true) /\
  forallb plain (modifiedCollections w) = true /\
  owned (files w) = true /\
  (forall n v,
      data w !! n = Some v -> n ∉ modifiedCollections w ->
      exists j, wrapper depth (heap w) n v = Some j /\
                Fs.readFile (file_of n) (files w) = Some (Fs.Document j)).

End Runs.

(** A record: an item that is an object. *)
Definition is_record (v : val) : bool :=
  match v with
  | VRef _ => true
  | _ => false
  end.

(** A listed entry [load] gets through, going by what reading it gives: its
    name does not end in [.json], or it is a file that parses to something
    other than [null]. *)
Definition readable (fs : Fs.directory) (file : string) : bool :=
  match Fs.strip_suffix ".json" file with
  | None => true
  | Some _ =>
      match Fs.readFile (Fs.join file) fs with
      | Some (Fs.Document JNull) => false
      | Some (Fs.Document _) => true
      | _ => false
      end
  end.

(** A filter function that looks at nothing but the record it is given, as
    [user => user.name === 'Jane'] does. *)
Definition local (P : predicate) : Prop :=
  forall (h h' : Js.heap) (l : loc),
    h !! l = h' !! l -> P h (VRef l) = P h' (VRef l).

(** The items [insert] pushes: those of [items] when it is an array, and
    [items] itself otherwise. *)
Definition pushed (h : Js.heap) (items : val) : list val :=
  match as_array h items with
  | Some vs => vs
  | None => [items]
  end.

End Dire.

(** ** Sample worlds *)

Module Sample.
Import Js Dire.

Definition person (name : string) (age : Z) : json :=
  JObj [("name", JStr name); ("age", JNum age)].

Definition users : json := JArr [person "John" 29; person "Jane" 29].

Definition db : Fs.directory :=
  [("users.json", Fs.Document (JObj [("users", users)]));
   ("README.md", Fs.Unparsable)].

Definition start : world :=
  {| heap := []; data := ∅; modifiedCollections := []; isLoaded := false;
     files := db; console := [] |}.

(** The store the tests run on: [new Dire("./tests/db")] and [load]. *)
Definition loaded : world := load (new start).

Definition named (name : string) : predicate :=
  fun h item =>
    match get h item "name" with
    | Some (VStr s) => String.eqb s name
    | _ => false
    end.

Definition never : predicate := fun _ _ => false.

(** [user => { user.age += 1 }] *)
Definition birthday : mutator :=
  fun fs =>
    match field "age" fs with
    | VNum z => set_member "age" (VNum (z + 1)) fs
    | _ => fs
    end.

(** Environments: one in which every write goes through, and one in which
    the writes to a given file are rejected. *)
Definition accepts_all : string -> bool := fun _ => false.
Definition refuses (file : string) : string -> bool := String.eqb file.
Definition depth : nat := 8.

(** What the caller does on its own: it builds an object, and it assigns to
    a member of an object it holds a reference to. *)
Definition caller_new (o : obj) (w : world) : world :=
  {| heap := heap w ++ [o]; data := data w;
     modifiedCollections := modifiedCollections w; isLoaded := isLoaded w;
     files := files w; console := console w |}.

Definition caller_assign (l : loc) (k : string) (v : val) (w : world)
  : world :=
  {| heap := assign l k v (heap w); data := data w;
     modifiedCollections := modifiedCollections w; isLoaded := isLoaded w;
     files := files w; console := console w |}.

Definition pet (name species : string) : obj :=
  ORec [("name", VStr name); ("species", VStr species)].

Definition pet_json (name species : string) : json :=
  JObj [("name", JStr name); ("species", JStr species)].

(** [const petsData = [oreo, siria]], built once the store is loaded: the
    two records are at 4 and 5 and the array at 6. *)
Definition with_pets : world :=
  caller_new (OArr [VRef 4; VRef 5])
    (caller_new (pet "Siria" "Dog") (caller_new (pet "Oreo" "Cat") loaded)).

Definition oreo : val := VRef 4.
Definition petsData : val := VRef 6.
Definition pets : json := JArr [pet_json "Oreo" "Cat"; pet_json "Siria" "Dog"].

(** The same with a file in the directory that is not JSON. *)
Definition with_broken : world :=
  {| heap := heap with_pets; data := data with_pets;
     modifiedCollections := modifiedCollections with_pets;
     isLoaded := isLoaded with_pets;
     files := ("broken.json", Fs.Unparsable) :: files with_pets;
     console := console with_pets |}.

(** The directory of the tests with a sub-directory [archive.json] in it,
    which holds a file. *)
Definition with_sub_directory : world :=
  {| heap := []; data := ∅; modifiedCollections := []; isLoaded := false;
     files := db ++ [("archive.json/users.json", Fs.Document (JObj []))];
     console := [] |}.

(** A directory in which the file of users holds more than the collection. *)
Definition foreign : world :=
  {| heap := []; data := ∅; modifiedCollections := []; isLoaded := false;
     files :=
       [("users.json",
         Fs.Document (JObj [("users", users); ("version", JNum 2)]))];
     console := [] |}.

(** [const shared = []], at 7. *)
Definition with_shared : world := caller_new (OArr []) with_pets.
Definition shared : val := VRef 7.

End Sample.

(** * Properties *)

Import Js Dire.

(** ** The JSON codec *)

Section JsonCodec.

Lemma revive_array js h :
  revive (JArr js) h =
  let '(vs, h1) := revive_elems js h in (VRef (length h1), h1 ++ [OArr vs]).
Proof. reflexivity. Qed.

Lemma revive_object ms h :
  revive (JObj ms) h =
  let '(fs, h1) := revive_members ms h in (VRef (length h1), h1 ++ [ORec fs]).
Proof. reflexivity. Qed.

Lemma stringify_elems_ext (f g : val -> stringified) vs :
  (forall v, v ∈ vs -> f v <> SThrow -> g v = f v) ->
  stringify_elems f vs <> None ->
  stringify_elems g vs = stringify_elems f vs.
Proof.
  induction vs as [|v vs IH]; simpl; intros Hfg Hn; [reflexivity|].
  assert (Hv : f v <> SThrow) by (destruct (f v); congruence).
  rewrite (Hfg v) by (auto; constructor).
  destruct (f v); [congruence| |];
    (rewrite IH;
     [ reflexivity
     | intros; apply Hfg; [by constructor|done]
     | destruct (stringify_elems f vs); simpl in *; congruence ]).
Qed.

Lemma stringify_members_ext (f g : val -> stringified) fs :
  (forall k v, (k, v) ∈ fs -> f v <> SThrow -> g v = f v) ->
  stringify_members f fs <> None ->
  stringify_members g fs = stringify_members f fs.
Proof.
  induction fs as [|[k v] fs IH]; simpl; intros Hfg Hn; [reflexivity|].
  assert (Hv : f v <> SThrow) by (destruct (f v); congruence).
  rewrite (Hfg k v) by (auto; constructor).
  destruct (f v); [congruence| |];
    (rewrite IH;
     [ reflexivity
     | intros; eapply Hfg; [by constructor|done]
     | destruct (stringify_members f fs); simpl in *; congruence ]).
Qed.

(** A successful serialization reads only objects that are there, so it is
    not affected by later allocations. *)
Lemma stringify_extend n : forall h h' v,
  h `prefix_of` h' -> stringify n h v <> SThrow ->
  stringify n h' v = stringify n h v.
Proof.
  induction n as [|n IH]; intros h h' v Hp Hs.
  - destruct v; simpl in *; congruence.
  - destruct v as [| | | | |l]; simpl in *; try reflexivity.
    destruct (h !! l) as [o|] eqn:Hl; [|congruence].
    rewrite (prefix_lookup_Some _ _ _ _ Hl Hp).
    destruct o as [vs|fs].
    + rewrite (stringify_elems_ext (stringify n h) (stringify n h')).
      * reflexivity.
      * intros; by apply IH.
      * destruct (stringify_elems _ vs); congruence.
    + rewrite (stringify_members_ext (stringify n h) (stringify n h')).
      * reflexivity.
      * intros; by apply IH.
      * destruct (stringify_members _ fs); congruence.
Qed.

Lemma stringify_elems_nesting (f : val -> stringified) m vs js :
  (forall v j, f v = SText j -> nesting j <= m) ->
  stringify_elems f vs = Some js ->
  Forall (fun j => nesting j <= m) js.
Proof.
  intros Hf. revert js.
  induction vs as [|v vs IH]; simpl; intros js Hs.
  - injection Hs as <-. constructor.
  - destruct (f v) eqn:Hv; [discriminate| |];
      destruct (stringify_elems f vs) as [js'|]; simpl in Hs; try discriminate;
      injection Hs as <-; constructor; eauto; simpl; lia.
Qed.

Lemma stringify_members_nesting (f : val -> stringified) m fs ms :
  (forall v j, f v = SText j -> nesting j <= m) ->
  stringify_members f fs = Some ms ->
  Forall (fun e => nesting e.2 <= m) ms.
Proof.
  intros Hf. revert ms.
  induction fs as [|[k v] fs IH]; simpl; intros ms Hs.
  - injection Hs as <-. constructor.
  - destruct (f v) eqn:Hv; [discriminate|eauto|].
    destruct (stringify_members f fs) as [ms'|]; simpl in Hs; try discriminate.
    injection Hs as <-. constructor; eauto.
Qed.

Lemma max_nesting_le {A} (g : A -> nat) m (xs : list A) :
  Forall (fun x => g x <= m) xs ->
  foldr (fun x n => Nat.max (g x) n) O xs <= m.
Proof. induction 1; simpl; lia. Qed.

Lemma max_nesting_ge {A} (g : A -> nat) m (xs : list A) :
  foldr (fun x n => Nat.max (g x) n) O xs <= m ->
  Forall (fun x => g x <= m) xs.
Proof.
  induction xs as [|x xs IH]; simpl; intros H; constructor; [lia|].
  apply IH. lia.
Qed.

(** The text of a value is nested no deeper than the serializer went. *)
Lemma stringify_nesting n : forall h v j,
  stringify n h v = SText j -> nesting j <= n.
Proof.
  induction n as [|n IH]; intros h v j Hs.
  - destruct v; simpl in Hs; try discriminate; injection Hs as <-; simpl; lia.
  - destruct v as [| | | | |l]; simpl in Hs; try discriminate;
      try (injection Hs as <-; simpl; lia).
    destruct (h !! l) as [[vs|fs]|]; try discriminate.
    + destruct (stringify_elems _ vs) as [js|] eqn:He; try discriminate.
      injection Hs as <-. simpl. apply le_n_S.
      apply (max_nesting_le nesting).
      eapply stringify_elems_nesting; [|exact He]. intros; eapply IH; eauto.
    + destruct (stringify_members _ fs) as [ms|] eqn:He; try discriminate.
      injection Hs as <-. simpl. apply le_n_S.
      apply (max_nesting_le (fun e : string * json => nesting e.2)).
      eapply stringify_members_nesting; [|exact He]. intros; eapply IH; eauto.
Qed.

(** [JSON.parse] only allocates, and what it builds serializes back to the
    document it was built from. *)
Lemma revive_stringify n : forall j h,
  nesting j <= n ->
  h `prefix_of` (revive j h).2 /\
  stringify n (revive j h).2 (revive j h).1 = SText j.
Proof.
  induction n as [|n IH]; intros j h Hn.
  - destruct j; simpl in Hn; try lia; simpl; split; reflexivity.
  - destruct j as [| | | |js|ms]; try (simpl; split; reflexivity).
    + rewrite revive_array. simpl in Hn. apply le_S_n, max_nesting_ge in Hn.
      assert (E : forall h, h `prefix_of` (revive_elems js h).2 /\
                forall h2, (revive_elems js h).2 `prefix_of` h2 ->
                  stringify_elems (stringify n h2) (revive_elems js h).1
                  = Some js).
      { clear h. induction Hn as [|j js Hj Hjs IHjs]; intros h; simpl.
        - split; [reflexivity|]. reflexivity.
        - destruct (IH j h Hj) as [P1 S1].
          destruct (revive j h) as [v h1] eqn:Ej. simpl in P1, S1.
          destruct (IHjs h1) as [P2 S2].
          destruct (revive_elems js h1) as [vs h2] eqn:Ejs. simpl in P2, S2.
          simpl. split; [by etrans|].
          intros h3 P3.
          rewrite (stringify_extend n h1 h3 v); [|by etrans|by rewrite S1].
          rewrite S1, (S2 h3 P3). reflexivity. }
      destruct (E h) as [P S]. destruct (revive_elems js h) as [vs h1].
      simpl in *. split.
      * etrans; [exact P|]. by apply prefix_app_r.
      * rewrite lookup_app_r, Nat.sub_diag by lia. simpl.
        rewrite S; [reflexivity|]. by apply prefix_app_r.
    + rewrite revive_object. simpl in Hn. apply le_S_n in Hn.
      apply (max_nesting_ge (fun e : string * json => nesting e.2)) in Hn.
      assert (E : forall h, h `prefix_of` (revive_members ms h).2 /\
                forall h2, (revive_members ms h).2 `prefix_of` h2 ->
                  stringify_members (stringify n h2) (revive_members ms h).1
                  = Some ms).
      { clear h. induction Hn as [|[k j] ms Hj Hms IHms]; intros h; simpl.
        - split; [reflexivity|]. reflexivity.
        - destruct (IH j h Hj) as [P1 S1].
          destruct (revive j h) as [v h1] eqn:Ej. simpl in P1, S1.
          destruct (IHms h1) as [P2 S2].
          destruct (revive_members ms h1) as [fs h2] eqn:Ems. simpl in P2, S2.
          simpl. split; [by etrans|].
          intros h3 P3.
          rewrite (stringify_extend n h1 h3 v); [|by etrans|by rewrite S1].
          rewrite S1, (S2 h3 P3). reflexivity. }
      destruct (E h) as [P S]. destruct (revive_members ms h) as [fs h1].
      simpl in *. split.
      * etrans; [exact P|]. by apply prefix_app_r.
      * rewrite lookup_app_r, Nat.sub_diag by lia. simpl.
        rewrite S; [reflexivity|]. by apply prefix_app_r.
Qed.

End JsonCodec.

(** ** Structural equality *)

Section Denotation.

Lemma stringify_elems_denotes (R : val -> json -> Prop)
  (f : val -> stringified) vs js :
  Forall2 R vs js ->
  (forall v j, v ∈ vs -> R v j -> f v <> SThrow -> f v = SText j) ->
  stringify_elems f vs <> None ->
  stringify_elems f vs = Some js.
Proof.
  induction 1 as [|v j vs js Hv Hvs IH]; simpl; intros Hf Hn; [reflexivity|].
  assert (Hfv : f v <> SThrow) by (by destruct (f v)).
  assert (E : f v = SText j) by (apply Hf; [constructor|done|done]).
  rewrite E in Hn |- *.
  rewrite IH; [reflexivity| |].
  - intros; apply Hf; [by constructor|done..].
  - by destruct (stringify_elems f vs).
Qed.

Lemma stringify_members_denotes (R : val -> json -> Prop)
  (f : val -> stringified) (fs : list (string * val))
  (ms : list (string * json)) :
  Forall2 (fun x m => x.1 = m.1 /\ R x.2 m.2) fs ms ->
  (forall x j, x ∈ fs -> R x.2 j -> f x.2 <> SThrow -> f x.2 = SText j) ->
  stringify_members f fs <> None ->
  stringify_members f fs = Some ms.
Proof.
  induction 1 as [|[k v] [k' j] fs ms [Hk Hv] Hfs IH]; simpl;
    intros Hf Hn; [reflexivity|].
  simpl in Hk, Hv. subst k'.
  assert (Hfv : f v <> SThrow) by (by destruct (f v)).
  assert (E : f v = SText j)
    by (apply (Hf (k, v) j); [constructor|done|done]).
  rewrite E in Hn |- *.
  rewrite IH; [reflexivity| |].
  - intros; apply Hf; [by constructor|done..].
  - by destruct (stringify_members f fs).
Qed.

(** The serializer writes a JSON value as it is, when it gets through it. *)
Lemma denotes_stringify n : forall h v j,
  denotes h v j -> stringify n h v <> SThrow -> stringify n h v = SText j.
Proof.
  induction n as [|n IH]; intros h v j Hd Hs.
  - inversion Hd; subst; simpl in *; done.
  - inversion Hd as [| | | |l vs js Hl Hall|l fs ms Hl Hall]; subst;
      simpl in *; try done; rewrite Hl in *.
    + rewrite (stringify_elems_denotes (denotes h) _ vs js Hall).
      * reflexivity.
      * intros; by apply IH.
      * destruct (stringify_elems _ vs); congruence.
    + rewrite (stringify_members_denotes (denotes h) _ fs ms Hall).
      * reflexivity.
      * intros; by apply IH.
      * destruct (stringify_members _ fs); congruence.
Qed.

(** A JSON value stays what it is when more objects are allocated. *)
Lemma denotes_extend n : forall h h' v j,
  nesting j <= n -> h `prefix_of` h' -> denotes h v j -> denotes h' v j.
Proof.
  induction n as [|n IH]; intros h h' v j Hn Hp Hd.
  - inversion Hd; subst; simpl in Hn; try lia; constructor.
  - inversion Hd as [| | | |l vs js Hl Hall|l fs ms Hl Hall]; subst;
      try constructor.
    + simpl in Hn. apply le_S_n, max_nesting_ge in Hn.
      econstructor; [by eapply prefix_lookup_Some|].
      clear Hl Hd. induction Hall; inversion Hn; subst; constructor; eauto.
    + simpl in Hn. apply le_S_n in Hn.
      apply (max_nesting_ge (fun e : string * json => nesting e.2)) in Hn.
      econstructor; [by eapply prefix_lookup_Some|].
      clear Hl Hd.
      induction Hall as [|x m fs ms [Hk Hv] Hall IHall];
        inversion Hn; subst; constructor; eauto.
Qed.

Lemma revive_prefix j h : h `prefix_of` (revive j h).2.
Proof. by destruct (revive_stringify (nesting j) j h). Qed.

Lemma revive_elems_prefix js : forall h, h `prefix_of` (revive_elems js h).2.
Proof.
  induction js as [|j js IH]; intros h; simpl; [done|].
  pose proof (revive_prefix j h) as P1. destruct (revive j h) as [v h1].
  pose proof (IH h1) as P2. destruct (revive_elems js h1) as [vs h2].
  simpl in *. by etrans.
Qed.

Lemma revive_members_prefix ms : forall h,
  h `prefix_of` (revive_members ms h).2.
Proof.
  induction ms as [|[k j] ms IH]; intros h; simpl; [done|].
  pose proof (revive_prefix j h) as P1. destruct (revive j h) as [v h1].
  pose proof (IH h1) as P2. destruct (revive_members ms h1) as [fs h2].
  simpl in *. by etrans.
Qed.

(** What [JSON.parse] builds is the JSON value it was built from. *)
Lemma revive_denotes n : forall j h,
  nesting j <= n -> denotes (revive j h).2 (revive j h).1 j.
Proof.
  induction n as [|n IH]; intros j h Hn.
  - destruct j; simpl in Hn; try lia; constructor.
  - destruct j as [| | | |js|ms]; try constructor.
    + rewrite revive_array. simpl in Hn. apply le_S_n, max_nesting_ge in Hn.
      assert (E : forall h h3, (revive_elems js h).2 `prefix_of` h3 ->
                  Forall2 (denotes h3) (revive_elems js h).1 js).
      { clear h. induction Hn as [|j js Hj Hjs IHjs]; intros h h3 P3;
          simpl in *; [constructor|].
        pose proof (IH j h Hj) as D1.
        destruct (revive j h) as [v h1] eqn:Ej. simpl in D1.
        pose proof (revive_elems_prefix js h1) as P2.
        pose proof (IHjs h1 h3) as D2.
        destruct (revive_elems js h1) as [vs h2] eqn:Ejs. simpl in *.
        constructor; [|by apply D2].
        apply (denotes_extend n h1); [done|by etrans|done]. }
      specialize (E h). destruct (revive_elems js h) as [vs h1]. simpl in *.
      econstructor.
      * by rewrite lookup_app_r, Nat.sub_diag by lia.
      * apply E. by apply prefix_app_r.
    + rewrite revive_object. simpl in Hn. apply le_S_n in Hn.
      apply (max_nesting_ge (fun e : string * json => nesting e.2)) in Hn.
      assert (E : forall h h3, (revive_members ms h).2 `prefix_of` h3 ->
                  Forall2 (fun x m => x.1 = m.1 /\ denotes h3 x.2 m.2)
                    (revive_members ms h).1 ms).
      { clear h. induction Hn as [|[k j] ms Hj Hms IHms]; intros h h3 P3;
          simpl in *; [constructor|].
        pose proof (IH j h Hj) as D1.
        destruct (revive j h) as [v h1] eqn:Ej. simpl in D1.
        pose proof (revive_members_prefix ms h1) as P2.
        pose proof (IHms h1 h3) as D2.
        destruct (revive_members ms h1) as [fs h2] eqn:Ems. simpl in *.
        constructor; [|by apply D2]. split; [done|].
        apply (denotes_extend n h1); [done|by etrans|done]. }
      specialize (E h). destruct (revive_members ms h) as [fs h1]. simpl in *.
      econstructor.
      * by rewrite lookup_app_r, Nat.sub_diag by lia.
      * apply E. by apply prefix_app_r.
Qed.

End Denotation.

(** ** The directory *)

Section Directory.

Lemma append_cons a x y : String a x +:+ y = String a (x +:+ y).
Proof. reflexivity. Qed.

Lemma append_nil y : EmptyString +:+ y = y.
Proof. reflexivity. Qed.

Lemma length_append x y :
  String.length (x +:+ y) = String.length x + String.length y.
Proof.
  induction x as [|a x IH]; [reflexivity|].
  rewrite append_cons. simpl. by rewrite IH.
Qed.

Lemma strip_suffix_unfold suf s :
  Fs.strip_suffix suf s =
  if String.eqb s suf then Some EmptyString
  else match s with
       | EmptyString => None
       | String a s' => String a <$> Fs.strip_suffix suf s'
       end.
Proof. destruct s; reflexivity. Qed.

Lemma strip_suffix_append suf x : Fs.strip_suffix suf (x +:+ suf) = Some x.
Proof.
  induction x as [|a x IH].
  - rewrite append_nil, strip_suffix_unfold, String.eqb_refl. reflexivity.
  - rewrite append_cons, strip_suffix_unfold.
    destruct (String.eqb_spec (String a (x +:+ suf)) suf) as [E|_].
    + apply (f_equal String.length) in E. simpl in E.
      rewrite length_append in E. lia.
    + rewrite IH. reflexivity.
Qed.

Lemma strip_suffix_Some suf s x :
  Fs.strip_suffix suf s = Some x -> s = x +:+ suf.
Proof.
  revert x. induction s as [|a s IH]; intros x; rewrite strip_suffix_unfold.
  - destruct (String.eqb_spec EmptyString suf) as [<-|_]; [|discriminate].
    by intros [= <-].
  - destruct (String.eqb_spec (String a s) suf) as [<-|_].
    + by intros [= <-].
    + destruct (Fs.strip_suffix suf s) as [x'|]; [|discriminate].
      intros [= <-]. rewrite append_cons. f_equal. by apply IH.
Qed.

Lemma has_sep_append x y : Fs.has_sep (x +:+ y) = Fs.has_sep x || Fs.has_sep y.
Proof.
  induction x as [|a x IH]; [reflexivity|].
  rewrite append_cons. simpl. rewrite IH. by rewrite orb_assoc.
Qed.

(** A path without separator is one segment, and [path.join] leaves it as
    it is when it is the name of an entry. *)
Lemma segments_single s : Fs.has_sep s = false -> Fs.segments s = [s].
Proof.
  induction s as [|a s IH]; simpl; [done|].
  destruct (Ascii.eqb a "/"); [done|]. simpl. intros Hs. by rewrite IH.
Qed.

Lemma join_single s :
  Fs.has_sep s = false -> Fs.entry_name s = true -> Fs.join s = s.
Proof.
  intros Hs He. unfold Fs.join. rewrite segments_single by done.
  unfold Fs.entry_name in He.
  apply andb_true_iff in He as [He H2]. apply andb_true_iff in He as [H0 H1].
  apply negb_true_iff in H0, H1, H2.
  simpl. unfold Fs.resolve. by rewrite H0, H1, H2.
Qed.

Lemma entry_name_json n : Fs.entry_name (n +:+ ".json") = true.
Proof.
  unfold Fs.entry_name.
  assert (H : forall x, String.length x < 5 ->
            String.eqb (n +:+ ".json") x = false).
  { intros x Hx. apply String.eqb_neq. intros E.
    apply (f_equal String.length) in E. rewrite length_append in E.
    simpl in E. lia. }
  rewrite !H by (simpl; lia). reflexivity.
Qed.

Lemma file_of_plain n : Fs.has_sep n = false -> file_of n = n +:+ ".json".
Proof.
  intros Hn. unfold file_of. apply join_single; [|apply entry_name_json].
  rewrite has_sep_append. simpl. by rewrite Hn.
Qed.

(** Two names without separator do not share a file. *)
Lemma file_of_inj a b :
  Fs.has_sep a = false -> Fs.has_sep b = false ->
  file_of a = file_of b -> a = b.
Proof.
  intros Ha Hb. rewrite !file_of_plain by done. intros E.
  pose proof (strip_suffix_append ".json" a) as H.
  rewrite E, strip_suffix_append in H. congruence.
Qed.

Lemma has_sep_file_of n :
  Fs.has_sep n = false -> Fs.has_sep (file_of n) = false.
Proof.
  intros Hn. rewrite file_of_plain, has_sep_append by done. simpl.
  by rewrite Hn.
Qed.

Lemma plain_sep n : plain n = true -> Fs.has_sep n = false.
Proof.
  unfold plain. intros [H _]%andb_true_iff. by apply negb_true_iff in H.
Qed.

Lemma plain_ordinary n : plain n = true -> ordinary n = true.
Proof. unfold plain. by intros [_ H]%andb_true_iff. Qed.

Lemma readFile_writeFile f c d : Fs.readFile f (Fs.writeFile f c d) = Some c.
Proof.
  induction d as [|[g x] d IH]; simpl.
  - by rewrite String.eqb_refl.
  - destruct (String.eqb_spec g f); simpl.
    + by rewrite String.eqb_refl.
    + destruct (String.eqb_spec g f); [done|]. exact IH.
Qed.

Lemma readFile_writeFile_ne f g c d :
  f <> g -> Fs.readFile g (Fs.writeFile f c d) = Fs.readFile g d.
Proof.
  intros Hne. induction d as [|[k x] d IH]; simpl.
  - destruct (String.eqb_spec f g); [done|reflexivity].
  - destruct (String.eqb_spec k f) as [->|Hk]; simpl.
    + destruct (String.eqb_spec f g); [done|reflexivity].
    + destruct (String.eqb_spec k g); [reflexivity|exact IH].
Qed.

Lemma readFile_unlink f d : Fs.readFile f (Fs.unlink f d) = None.
Proof.
  induction d as [|[g x] d IH]; simpl; [reflexivity|].
  destruct (String.eqb_spec g f) as [->|Hg]; [exact IH|].
  simpl. destruct (String.eqb_spec g f); [done|exact IH].
Qed.

Lemma readFile_unlink_ne f g d :
  f <> g -> Fs.readFile g (Fs.unlink f d) = Fs.readFile g d.
Proof.
  intros Hne. induction d as [|[k x] d IH]; simpl; [reflexivity|].
  destruct (String.eqb_spec k f) as [->|Hk]; simpl.
  - destruct (String.eqb_spec f g); [done|exact IH].
  - destruct (String.eqb_spec k g); [reflexivity|exact IH].
Qed.

Lemma readFile_Some f c d : Fs.readFile f d = Some c -> (f, c) ∈ d.
Proof.
  induction d as [|[g x] d IH]; simpl; [discriminate|].
  destruct (String.eqb_spec g f) as [->|_].
  - intros [= ->]. constructor.
  - intros H. constructor. by apply IH.
Qed.

Lemma readFile_None f d : Fs.readFile f d = None <-> f ∉ d.*1.
Proof.
  induction d as [|[g x] d IH]; simpl.
  - split; [intros _; apply not_elem_of_nil|done].
  - rewrite not_elem_of_cons. destruct (String.eqb_spec g f) as [->|Hg].
    + split; [discriminate|]. intros [? _]. done.
    + rewrite IH. naive_solver.
Qed.

Lemma writeFile_names f c d g :
  g ∈ (Fs.writeFile f c d).*1 <-> g = f \/ g ∈ d.*1.
Proof.
  induction d as [|[k x] d IH]; simpl.
  - rewrite list_elem_of_singleton. split; [by left|].
    intros [?|H]; [done|by apply elem_of_nil in H].
  - destruct (String.eqb_spec k f) as [->|Hk]; simpl.
    + rewrite elem_of_cons. naive_solver.
    + rewrite !elem_of_cons, IH. naive_solver.
Qed.

Lemma unlink_names f d g : g ∈ (Fs.unlink f d).*1 <-> g <> f /\ g ∈ d.*1.
Proof.
  induction d as [|[k x] d IH]; simpl.
  - split; [by intros ?%elem_of_nil|]. by intros [_ ?%elem_of_nil].
  - destruct (String.eqb_spec k f) as [->|Hk]; simpl.
    + rewrite elem_of_cons, IH. naive_solver.
    + rewrite !elem_of_cons, IH. naive_solver.
Qed.

Lemma first_segment_single s :
  Fs.has_sep s = false -> Fs.first_segment s = s.
Proof.
  induction s as [|a s IH]; simpl; [done|].
  destruct (Ascii.eqb a "/"); [done|]. simpl. intros Hs. by rewrite IH.
Qed.

Lemma has_sep_first_segment s : Fs.has_sep (Fs.first_segment s) = false.
Proof.
  induction s as [|a s IH]; simpl; [done|].
  destruct (Ascii.eqb a "/") eqn:E; [done|]. simpl. by rewrite E.
Qed.

(** A path is its first segment, or is below it. *)
Lemma first_segment_below s :
  Fs.first_segment s = s \/
  Fs.starts_with (Fs.first_segment s +:+ "/") s = true.
Proof.
  induction s as [|a s IH]; simpl; [by left|].
  destruct (Ascii.eqb_spec a "/") as [->|Ha].
  - right. rewrite append_nil. reflexivity.
  - destruct IH as [->|IH]; [by left|]. right.
    rewrite append_cons. simpl. by rewrite Ascii.eqb_refl.
Qed.

Lemma starts_with_sep f k :
  Fs.starts_with (f +:+ "/") k = true -> Fs.has_sep k = true.
Proof.
  revert k. induction f as [|a f IH]; intros k.
  - rewrite append_nil. destruct k as [|b k]; [done|].
    cbn [Fs.starts_with Fs.has_sep].
    destruct (Ascii.eqb_spec "/" b) as [<-|]; [|done].
    by rewrite Ascii.eqb_refl.
  - rewrite append_cons. destruct k as [|b k]; [done|].
    cbn [Fs.starts_with Fs.has_sep].
    intros [_ H]%andb_true_iff. rewrite (IH k H). apply orb_true_r.
Qed.

Lemma elem_of_readdir f d :
  f ∈ Fs.readdir d <->
  Fs.entry_name f = true /\ exists k, k ∈ d.*1 /\ Fs.first_segment k = f.
Proof.
  unfold Fs.readdir.
  rewrite elem_of_remove_dups, list_elem_of_In, filter_In, <- list_elem_of_In.
  rewrite list_elem_of_fmap. naive_solver.
Qed.

Lemma has_sep_listed f d : f ∈ Fs.readdir d -> Fs.has_sep f = false.
Proof.
  intros (_ & k & _ & <-)%elem_of_readdir. apply has_sep_first_segment.
Qed.

(** A file of the directory itself is listed. *)
Lemma listed_file f c d :
  Fs.has_sep f = false -> Fs.entry_name f = true ->
  Fs.readFile f d = Some c -> f ∈ Fs.readdir d.
Proof.
  intros Hs He Hr. apply elem_of_readdir. split; [done|]. exists f.
  split; [|by apply first_segment_single].
  destruct (decide (f ∈ d.*1)) as [|Hn]; [done|].
  apply readFile_None in Hn. congruence.
Qed.

Lemma readdir_writeFile k c d g :
  Fs.has_sep k = false -> Fs.entry_name k = true ->
  g ∈ Fs.readdir (Fs.writeFile k c d) <-> g = k \/ g ∈ Fs.readdir d.
Proof.
  intros Hs He. rewrite !elem_of_readdir. split.
  - intros (Hg & x & Hx & Hf). apply writeFile_names in Hx as [->|Hx].
    + left. by rewrite first_segment_single in Hf.
    + right. eauto.
  - intros [->|(Hg & x & Hx & Hf)].
    + split; [done|]. exists k. rewrite writeFile_names.
      split; [by left|by apply first_segment_single].
    + split; [done|]. exists x. rewrite writeFile_names. auto.
Qed.

Lemma readdir_unlink k d g :
  g ∈ Fs.readdir (Fs.unlink k d) ->
  g ∈ Fs.readdir d /\ (g = k -> Fs.is_dir k d = true).
Proof.
  rewrite !elem_of_readdir. intros (Hg & x & Hx & Hf).
  apply unlink_names in Hx as [Hne Hx]. split; [eauto|].
  intros ->. unfold Fs.is_dir. apply existsb_exists.
  apply list_elem_of_fmap in Hx as ([x' c] & -> & Hx). simpl in *.
  exists (x', c). split; [by apply list_elem_of_In|]. simpl.
  destruct (first_segment_below x') as [E|E]; [congruence|].
  by rewrite Hf in E.
Qed.

Lemma is_dir_writeFile f k c d :
  Fs.has_sep k = false -> Fs.is_dir f (Fs.writeFile k c d) = Fs.is_dir f d.
Proof.
  intros Hk.
  assert (Hp : Fs.starts_with (f +:+ "/") k = false).
  { destruct (Fs.starts_with (f +:+ "/") k) eqn:E; [|done].
    apply starts_with_sep in E. congruence. }
  unfold Fs.is_dir. induction d as [|[g x] d IH]; simpl.
  - by rewrite Hp.
  - destruct (String.eqb_spec g k) as [->|Hg]; simpl.
    + by rewrite Hp.
    + by rewrite IH.
Qed.

Lemma is_dir_writeFile_mono f k c d :
  Fs.is_dir f d = true -> Fs.is_dir f (Fs.writeFile k c d) = true.
Proof.
  unfold Fs.is_dir. rewrite !existsb_exists.
  intros ([g x] & Hin & Hp). simpl in Hp.
  exists (g, if String.eqb g k then c else x). split; [|done].
  apply list_elem_of_In in Hin. apply list_elem_of_In.
  induction d as [|[g' x'] d IH]; [by apply elem_of_nil in Hin|].
  simpl. apply elem_of_cons in Hin as [[= <- <-]|Hin].
  - destruct (String.eqb_spec g k) as [->|]; constructor.
  - destruct (String.eqb_spec g' k) as [->|Hne].
    + destruct (String.eqb_spec g k) as [->|Hgk]; [constructor|].
      by constructor.
    + constructor. by apply IH.
Qed.

Lemma is_dir_unlink f k d :
  Fs.is_dir f d = false -> Fs.is_dir f (Fs.unlink k d) = false.
Proof.
  unfold Fs.is_dir. induction d as [|[g x] d IH]; simpl; [done|].
  intros [H1 H2]%orb_false_iff.
  destruct (String.eqb g k); simpl; [by apply IH|].
  rewrite H1. by apply IH.
Qed.

Lemma get_new_record h fs k :
  get (h ++ [ORec fs]) (VRef (length h)) k = Some (field k fs).
Proof. simpl. by rewrite lookup_app_r, Nat.sub_diag by lia. Qed.

Lemma listed_join f fs : f ∈ Fs.readdir fs -> Fs.join f = f.
Proof.
  intros Hf. apply join_single; [by eapply has_sep_listed|].
  by apply elem_of_readdir in Hf as [? _].
Qed.

End Directory.

(** ** Reads *)

Section Reads.

Lemma filter_sublist {A} (f : A -> bool) (xs : list A) :
  List.filter f xs `sublist_of` xs.
Proof.
  induction xs as [|x xs IH]; simpl; [constructor|].
  destruct (f x); by constructor.
Qed.

Lemma as_array_alloc h vs : as_array (h ++ [OArr vs]) (VRef (length h)) = Some vs.
Proof. simpl. by rewrite lookup_app_r, Nat.sub_diag by lia. Qed.

Lemma filter_always h (xs : list val) : List.filter (always h) xs = xs.
Proof. induction xs; simpl; by f_equal. Qed.

(** C5: on an existing collection, [find] is fulfilled with a new array
    holding exactly the records that satisfy the predicate, in the order of
    the collection, and with every record when the predicate is left out;
    it leaves the store as it is. *)
Theorem find_returns_matching_subsequence
  (w : world) (C : string) (P : predicate) (items : list val) :
  as_array (heap w) (collection w C) = Some items ->
  (exists l,
      (find C (Some P) w).1 = Fulfilled (VRef l) /\
      as_array (heap (find C (Some P) w).2) (VRef l)
      = Some (List.filter (P (heap w)) items) /\
      List.filter (P (heap w)) items `sublist_of` items /\
      (forall r, r ∈ List.filter (P (heap w)) items
                 <-> r ∈ items /\ P (heap w) r = true)) /\
  (exists l,
      (find C None w).1 = Fulfilled (VRef l) /\
      as_array (heap (find C None w).2) (VRef l) = Some items) /\
  (forall f, data (find C f w).2 = data w /\
             modifiedCollections (find C f w).2 = modifiedCollections w /\
             files (find C f w).2 = files w).
Proof.
  intros Hc. unfold find. rewrite Hc. cbn [alloc fst snd heap default].
  split; [|split].
  - exists (length (heap w)). split; [reflexivity|].
    split; [apply as_array_alloc|]. split; [apply filter_sublist|].
    intros r. by rewrite !list_elem_of_In, filter_In.
  - exists (length (heap w)). split; [reflexivity|].
    rewrite filter_always. apply as_array_alloc.
  - intros f. simpl. done.
Qed.

Lemma find_returns_matching_subsequence_witness :
  exists l,
    (find "users" (Some (Sample.named "Jane")) Sample.loaded).1
    = Fulfilled (VRef l) /\
    as_array (heap (find "users" (Some (Sample.named "Jane")) Sample.loaded).2)
      (VRef l) = Some [VRef 1].
Proof.
  destruct (find_returns_matching_subsequence Sample.loaded "users"
              (Sample.named "Jane") [VRef 0; VRef 1])
    as [(l & Hr & Ha & _) _]; [vm_compute; reflexivity|].
  exists l. split; [exact Hr|]. rewrite Ha. vm_compute. reflexivity.
Defined.

Lemma find_first {A} (f : A -> bool) (pre post : list A) (r : A) :
  (forall x, x ∈ pre -> f x = false) -> f r = true ->
  List.find f (pre ++ r :: post) = Some r.
Proof.
  intros Hpre Hr. induction pre as [|x pre IH]; simpl.
  - by rewrite Hr.
  - rewrite (Hpre x) by constructor. apply IH. intros; apply Hpre. by constructor.
Qed.

Lemma find_no_match {A} (f : A -> bool) (xs : list A) :
  (forall x, x ∈ xs -> f x = false) -> List.find f xs = None.
Proof.
  induction xs as [|x xs IH]; simpl; intros H; [reflexivity|].
  rewrite (H x) by constructor. apply IH. intros; apply H. by constructor.
Qed.

(** What [findOne] is fulfilled with, whatever the items are: a match that
    is falsy (0, the empty string, false, null) is turned into null. *)
Lemma findOne_eq w C P items :
  as_array (heap w) (collection w C) = Some items ->
  findOne C (Some P) w =
  (Fulfilled (or_null (default VUndef (List.find (P (heap w)) items))), w).
Proof. intros Hc. unfold findOne. by rewrite Hc. Qed.

(** A record [findOne] is fulfilled with is one of the items of the store,
    not a copy. *)
Lemma findOne_returns_item w C P items l :
  as_array (heap w) (collection w C) = Some items ->
  (findOne C (Some P) w).1 = Fulfilled (VRef l) ->
  VRef l ∈ items.
Proof.
  intros Hc. rewrite (findOne_eq w C P items Hc). simpl.
  destruct (List.find (P (heap w)) items) as [v|] eqn:Hf; simpl.
  - apply find_some in Hf as [Hin _]. apply list_elem_of_In in Hin.
    unfold or_null. destruct (truthy v); [|discriminate]. by intros [= ->].
  - discriminate.
Qed.

(** C7: on an existing collection of records, [findOne] is fulfilled with
    the first record, in the order of the collection, that satisfies the
    predicate, and with null when no record satisfies it. *)
Theorem findOne_returns_first_match
  (w : world) (C : string) (P : predicate) (items : list val) :
  as_array (heap w) (collection w C) = Some items ->
  forallb is_record items = true ->
  (forall pre r post,
      items = pre ++ r :: post ->
      (forall x, x ∈ pre -> P (heap w) x = false) ->
      P (heap w) r = true ->
      findOne C (Some P) w = (Fulfilled r, w)) /\
  ((forall x, x ∈ items -> P (heap w) x = false) ->
   findOne C (Some P) w = (Fulfilled VNull, w)).
Proof.
  intros Hc Hrec. split.
  - intros pre r post -> Hpre Hr.
    rewrite (findOne_eq w C P _ Hc), find_first by done. simpl.
    rewrite forallb_app in Hrec. apply andb_true_iff in Hrec as [_ Hrec].
    simpl in Hrec. apply andb_true_iff in Hrec as [Hrec _].
    destruct r; try discriminate. reflexivity.
  - intros Hnone. by rewrite (findOne_eq w C P _ Hc), find_no_match.
Qed.

Lemma findOne_returns_first_match_witness :
  findOne "users" (Some (Sample.named "Jane")) Sample.loaded
  = (Fulfilled (VRef 1), Sample.loaded) /\
  findOne "users" (Some (Sample.named "Eve")) Sample.loaded
  = (Fulfilled VNull, Sample.loaded).
Proof.
  destruct (findOne_returns_first_match Sample.loaded "users"
              (Sample.named "Jane") [VRef 0; VRef 1]) as [Hfirst _];
    [vm_compute; reflexivity|reflexivity|].
  destruct (findOne_returns_first_match Sample.loaded "users"
              (Sample.named "Eve") [VRef 0; VRef 1]) as [_ Hnone];
    [vm_compute; reflexivity|reflexivity|].
  split.
  - apply (Hfirst [VRef 0] (VRef 1) []); [reflexivity| |vm_compute; reflexivity].
    intros x ->%list_elem_of_singleton. vm_compute. reflexivity.
  - apply Hnone. intros x Hx.
    apply elem_of_cons in Hx as [->|Hx]; [vm_compute; reflexivity|].
    apply list_elem_of_singleton in Hx as ->. vm_compute. reflexivity.
Defined.

(** C9: on an existing collection that is not empty, [findOne] without a
    predicate is rejected, where it would have been fulfilled with the first
    record had it defaulted to match-all; [find], [update] and [delete]
    without a predicate behave as with the predicate that matches all, and
    are fulfilled. *)
Theorem findOne_without_predicate_rejects
  (w : world) (C : string) (r : val) (items : list val) (u : mutator) :
  as_array (heap w) (collection w C) = Some (r :: items) ->
  findOne C None w = (Rejected, w) /\
  findOne C (Some always) w = (Fulfilled (or_null r), w) /\
  (find C None w = find C (Some always) w /\
   fulfilled (find C None w) = true) /\
  (update C None u w = update C (Some always) u w /\
   fulfilled (update C None u w) = true) /\
  (delete C None w = delete C (Some always) w /\
   fulfilled (delete C None w) = true).
Proof.
  intros Hc. unfold findOne, find, update, delete, fulfilled.
  rewrite Hc. simpl. done.
Qed.

Lemma findOne_without_predicate_rejects_witness :
  findOne "users" None Sample.loaded = (Rejected, Sample.loaded).
Proof.
  apply (findOne_without_predicate_rejects Sample.loaded "users" (VRef 0)
           [VRef 1] Sample.birthday).
  vm_compute. reflexivity.
Defined.

End Reads.

(** ** Mutations *)

Section Mutations.

Lemma collection_mark n m w :
  collection (markCollectionAsModified n w) m = collection w m.
Proof. reflexivity. Qed.

Lemma elem_of_set_add x n (s : list string) :
  x ∈ set_add n s <-> x = n \/ x ∈ s.
Proof.
  unfold set_add. case_decide.
  - naive_solver.
  - rewrite elem_of_app, list_elem_of_singleton. naive_solver.
Qed.

Lemma filter_none_always h (xs : list val) :
  List.filter (fun item => negb (always h item)) xs = [].
Proof. induction xs; simpl; done. Qed.

Lemma find_eq w C f items :
  as_array (heap w) (collection w C) = Some items ->
  find C f w =
  (Fulfilled (VRef (length (heap w))),
   {| heap := heap w ++ [OArr (List.filter (default always f (heap w)) items)];
      data := data w; modifiedCollections := modifiedCollections w;
      isLoaded := isLoaded w; files := files w; console := console w |}).
Proof. intros Hc. unfold find. by rewrite Hc. Qed.

Lemma delete_eq w C f items :
  as_array (heap w) (collection w C) = Some items ->
  delete C f w =
  (Fulfilled tt,
   markCollectionAsModified C
     {| heap := heap w ++
                [OArr (List.filter
                         (fun item => negb (default always f (heap w) item))
                         items)];
        data := <[C := VRef (length (heap w))]> (data w);
        modifiedCollections := modifiedCollections w;
        isLoaded := isLoaded w; files := files w; console := console w |}).
Proof. intros Hc. unfold delete. by rewrite Hc. Qed.

Lemma collection_insert_eq h d m l f c C v :
  collection (World h (<[C := v]> d) m l f c) C = v.
Proof. unfold collection. simpl. by rewrite lookup_insert_eq. Qed.

(** C6: on an existing collection, [delete] replaces the collection by the
    records that do not satisfy the predicate, in their former order, so
    that a [find] without predicate returns exactly these; without a
    predicate it removes every record. *)
Theorem delete_keeps_unmatched
  (w : world) (C : string) (P : predicate) (items : list val) :
  as_array (heap w) (collection w C) = Some items ->
  let kept := List.filter (fun r => negb (P (heap w) r)) items in
  let w' := (delete C (Some P) w).2 in
  (delete C (Some P) w).1 = Fulfilled tt /\
  as_array (heap w') (collection w' C) = Some kept /\
  (exists l, (find C None w').1 = Fulfilled (VRef l) /\
             as_array (heap (find C None w').2) (VRef l) = Some kept) /\
  kept `sublist_of` items /\
  (forall r, r ∈ kept <-> r ∈ items /\ P (heap w) r = false) /\
  as_array (heap (delete C None w).2) (collection (delete C None w).2 C)
  = Some [].
Proof.
  intros Hc kept w'. subst w'. rewrite !(delete_eq w C _ items Hc).
  cbn [fst snd]. rewrite !collection_mark, !collection_insert_eq.
  change (default always (Some P) (heap w)) with (P (heap w)).
  fold kept. cbn [markCollectionAsModified heap].
  assert (Hk : as_array (heap w ++ [OArr kept]) (VRef (length (heap w)))
               = Some kept) by apply as_array_alloc.
  split; [reflexivity|]. split; [exact Hk|]. split; [|split; [|split]].
  - erewrite find_eq
      by (rewrite collection_mark, collection_insert_eq; exact Hk).
    cbn [fst snd heap default]. eexists. split; [reflexivity|].
    rewrite filter_always. apply as_array_alloc.
  - apply filter_sublist.
  - intros r. unfold kept.
    by rewrite !list_elem_of_In, filter_In, negb_true_iff.
  - change (default always None (heap w)) with (always (heap w)).
    rewrite filter_none_always. apply as_array_alloc.
Qed.

Lemma delete_keeps_unmatched_witness :
  as_array (heap (delete "users" (Some (Sample.named "Jane")) Sample.loaded).2)
    (collection (delete "users" (Some (Sample.named "Jane")) Sample.loaded).2
       "users")
  = Some [VRef 0].
Proof.
  destruct (delete_keeps_unmatched Sample.loaded "users" (Sample.named "Jane")
              [VRef 0; VRef 1]) as (_ & Hk & _); [vm_compute; reflexivity|].
  rewrite Hk. vm_compute. reflexivity.
Defined.

End Mutations.

(** ** What a mutation leaves alone *)

Section Frame.

(** [push] writes to the array it is given and to nothing else. *)
Lemma push_all_frame c items : forall h h',
  push_all c items h = Some h' ->
  length h' = length h /\ forall l, c <> VRef l -> h' !! l = h !! l.
Proof.
  induction items as [|item items IH]; simpl; intros h h' Hp.
  - injection Hp as <-. done.
  - destruct (push c item h) as [h1|] eqn:E; [|discriminate].
    destruct (IH h1 h' Hp) as [Hlen Hfr].
    unfold push in E. destruct c as [| | | | |lc]; try discriminate.
    destruct (h !! lc) as [[vs|]|] eqn:Hlc; try discriminate.
    injection E as <-. rewrite length_insert in Hlen. split; [done|].
    intros l Hl. rewrite Hfr by done.
    apply list_lookup_insert_ne. congruence.
Qed.

(** An update function writes to the records it is given: it leaves every
    array as it is, and every object that is not an item. *)
Lemma mutate_frame u item h :
  length (mutate u item h) = length h /\
  (forall l vs, h !! l = Some (OArr vs) ->
                mutate u item h !! l = Some (OArr vs)) /\
  (forall l, item <> VRef l -> mutate u item h !! l = h !! l).
Proof.
  unfold mutate. destruct item as [| | | | |li]; try done.
  destruct (h !! li) as [[vs|fs]|] eqn:Hli; try done.
  rewrite length_insert. split; [done|]. split.
  - intros l vs Hl. rewrite list_lookup_insert_ne; [done|]. congruence.
  - intros l Hl. apply list_lookup_insert_ne. congruence.
Qed.

Lemma update_frame f u items : forall h,
  let h' := foldl (update_step f u) h items in
  length h' = length h /\
  (forall l vs, h !! l = Some (OArr vs) -> h' !! l = Some (OArr vs)) /\
  (forall l, VRef l ∉ items -> h' !! l = h !! l).
Proof.
  induction items as [|item items IH]; simpl; intros h; [done|].
  destruct (IH (update_step f u h item)) as (Hlen & Harr & Hfr).
  assert (Hstep : length (update_step f u h item) = length h /\
            (forall l vs, h !! l = Some (OArr vs) ->
                          update_step f u h item !! l = Some (OArr vs)) /\
            (forall l, item <> VRef l -> update_step f u h item !! l = h !! l)).
  { unfold update_step. destruct (f h item); [apply mutate_frame|done]. }
  destruct Hstep as (Hlen1 & Harr1 & Hfr1).
  split; [congruence|]. split.
  - intros l vs Hl. by apply Harr, Harr1.
  - intros l Hl. apply not_elem_of_cons in Hl as [Hne Hl].
    rewrite Hfr by done. apply Hfr1. congruence.
Qed.

Lemma as_array_frame h h' v items :
  as_array h v = Some items ->
  (forall l, v = VRef l -> h' !! l = h !! l) ->
  as_array h' v = Some items.
Proof.
  destruct v as [| | | | |l]; simpl; try discriminate.
  intros Ha Hfr. by rewrite Hfr.
Qed.

Lemma collection_data w w' M :
  data w' !! M = data w !! M -> collection w' M = collection w M.
Proof. unfold collection. by intros ->. Qed.

Lemma add_eq_default w C items :
  items = None \/ items = Some VUndef ->
  add C items w =
  markCollectionAsModified C
    {| heap := heap w ++ [OArr []];
       data := <[C := VRef (length (heap w))]> (data w);
       modifiedCollections := modifiedCollections w; isLoaded := isLoaded w;
       files := files w; console := console w |}.
Proof. by intros [-> | ->]. Qed.

Lemma add_eq_given w C v :
  v <> VUndef ->
  add C (Some v) w =
  markCollectionAsModified C
    {| heap := heap w; data := <[C := v]> (data w);
       modifiedCollections := modifiedCollections w; isLoaded := isLoaded w;
       files := files w; console := console w |}.
Proof. by destruct v. Qed.

Variable write_fails : string -> bool.
Variable depth : nat.


End Frame.

(** ** Flushing *)

Section Flush.

Variable write_fails : string -> bool.
Variable depth : nat.

Local Abbreviation flush := (Dire.flush write_fails depth).
Local Abbreviation save := (Dire.save write_fails depth).
Local Abbreviation flushable := (Dire.flushable write_fails depth).
Local Abbreviation flushes := (Dire.flushes write_fails depth).

Lemma Forall_plain_sep (names : list string) :
  forallb plain names = true -> Forall (fun m => Fs.has_sep m = false) names.
Proof.
  intros H. apply Forall_forall. intros m Hm. apply plain_sep.
  by apply (proj1 (forallb_forall _ _) H), list_elem_of_In.
Qed.

Lemma set_add_plain n (s : list string) :
  plain n = true -> forallb plain s = true ->
  forallb plain (set_add n s) = true.
Proof.
  intros Hn Hs. unfold set_add. case_decide; [done|].
  rewrite forallb_app, Hs. simpl. by rewrite Hn.
Qed.

(** The loop writes to the files of the collections it is given only. *)
Lemma flush_other names h d f : forall fs,
  f ∉ file_of <$> names ->
  Fs.readFile f (flush names h d fs).1 = Fs.readFile f fs.
Proof.
  induction names as [|m names IH]; simpl; intros fs Hf; [done|].
  apply not_elem_of_cons in Hf as [Hne Hf].
  destruct (wrapper _ _ _ _); [|reflexivity].
  destruct (_ || _); [reflexivity|].
  rewrite IH by done. by apply readFile_writeFile_ne.
Qed.

(** Writing the file of a name without separator makes no directory. *)
Lemma flush_is_dir names h d f : forall fs,
  Forall (fun m => Fs.has_sep m = false) names ->
  Fs.is_dir f (flush names h d fs).1 = Fs.is_dir f fs.
Proof.
  induction names as [|m names IH]; simpl; intros fs Hs; [done|].
  apply Forall_cons in Hs as [Hm Hs].
  destruct (wrapper _ _ _ _); [|reflexivity].
  destruct (_ || _); [reflexivity|].
  rewrite IH by done. apply is_dir_writeFile. by apply has_sep_file_of.
Qed.

Lemma flushable_at w fs n :
  (forall f, Fs.is_dir f fs = Fs.is_dir f (files w)) ->
  flushable w n =
  match wrapper depth (heap w) n (default VUndef (data w !! n)) with
  | Some _ => negb (write_fails (file_of n) || Fs.is_dir (file_of n) fs)
  | None => false
  end.
Proof.
  intros Hd. unfold Dire.flushable, collection.
  destruct (wrapper _ _ _ _); [|done]. by rewrite Hd, negb_orb.
Qed.

(** The loop stops at the first collection it cannot write. *)
Lemma flush_stops w pre n post : forall fs,
  (forall f, Fs.is_dir f fs = Fs.is_dir f (files w)) ->
  Forall (fun m => Fs.has_sep m = false) pre ->
  forallb (flushable w) pre = true ->
  flushable w n = false ->
  flush (pre ++ n :: post) (heap w) (data w) fs
  = ((flush pre (heap w) (data w) fs).1, false).
Proof.
  induction pre as [|m pre IH]; simpl; intros fs Hd Hs Hpre Hn.
  - rewrite (flushable_at w fs n Hd) in Hn.
    destruct (wrapper _ _ _ _); [|reflexivity].
    apply negb_false_iff in Hn. by rewrite Hn.
  - apply andb_true_iff in Hpre as [Hm Hpre].
    apply Forall_cons in Hs as [Hsm Hs].
    rewrite (flushable_at w fs m Hd) in Hm.
    destruct (wrapper _ _ _ _); [|discriminate].
    apply negb_true_iff in Hm. rewrite Hm. apply IH; try done.
    intros f. rewrite is_dir_writeFile; [apply Hd|by apply has_sep_file_of].
Qed.

Lemma flush_completes w names : forall fs,
  (forall f, Fs.is_dir f fs = Fs.is_dir f (files w)) ->
  Forall (fun m => Fs.has_sep m = false) names ->
  (flush names (heap w) (data w) fs).2 = forallb (flushable w) names.
Proof.
  induction names as [|m names IH]; simpl; intros fs Hd Hs; [done|].
  apply Forall_cons in Hs as [Hsm Hs].
  rewrite (flushable_at w fs m Hd).
  destruct (wrapper _ _ _ _); [|reflexivity].
  destruct (_ || _); [reflexivity|]. simpl. apply IH; [|done].
  intros f. rewrite is_dir_writeFile; [apply Hd|by apply has_sep_file_of].
Qed.

Lemma not_elem_of_files n names :
  Fs.has_sep n = false ->
  Forall (fun m => Fs.has_sep m = false) names ->
  n ∉ names -> file_of n ∉ file_of <$> names.
Proof.
  intros Hn Hs Hnot (m & E & Hm)%list_elem_of_fmap.
  rewrite Forall_forall in Hs.
  apply file_of_inj in E; [by subst|done|by apply Hs].
Qed.

(** Every collection the loop gets through has its wrapper in its file,
    when the names have no separator. *)
Lemma flush_written h d names n : forall fs,
  Forall (fun m => Fs.has_sep m = false) names ->
  (flush names h d fs).2 = true ->
  n ∈ names ->
  Fs.readFile (file_of n) (flush names h d fs).1
  = Fs.Document <$> wrapper depth h n (default VUndef (d !! n)).
Proof.
  induction names as [|m names IH]; simpl; intros fs Hs Hok Hn.
  - by apply elem_of_nil in Hn.
  - pose proof Hs as Hs'. apply Forall_cons in Hs' as [Hsm Hs'].
    destruct (wrapper depth h m (default VUndef (d !! m))) as [j|] eqn:Hw;
      [|discriminate].
    destruct (_ || _); [discriminate|].
    destruct (decide (n ∈ names)) as [Hin|Hnin]; [by apply IH|].
    apply elem_of_cons in Hn as [->|]; [|done].
    rewrite flush_other by (by apply not_elem_of_files).
    by rewrite readFile_writeFile, Hw.
Qed.

(** The loop does not get through when one of the collections cannot be
    written. *)
Lemma flush_fails w n names : forall fs,
  (forall f, Fs.is_dir f (files w) = true -> Fs.is_dir f fs = true) ->
  n ∈ names ->
  flushable w n = false ->
  (flush names (heap w) (data w) fs).2 = false.
Proof.
  induction names as [|m names IH]; simpl; intros fs Hd Hn Hf.
  - by apply elem_of_nil in Hn.
  - destruct (wrapper depth (heap w) m (default VUndef (data w !! m)))
      as [j|] eqn:Hw; [|reflexivity].
    destruct (write_fails (file_of m) || Fs.is_dir (file_of m) fs) eqn:Hb;
      [reflexivity|].
    apply orb_false_iff in Hb as [Hb1 Hb2].
    destruct (decide (n = m)) as [->|Hne].
    + unfold Dire.flushable, collection in Hf. rewrite Hw, Hb1 in Hf.
      simpl in Hf. apply negb_false_iff in Hf. apply Hd in Hf. congruence.
    + apply IH; [|by apply elem_of_cons in Hn as [?|?]|done].
      intros f Hfd. by apply is_dir_writeFile_mono, Hd.
Qed.

(** C2, as the code has it: when one collection of the modified set cannot
    be written, [save] does not get through: the failure is logged and the
    modified set is left as it was.  It stops at the first such collection:
    when the collections before it in the modified set have plain names
    (and [this.data] the prototype it was created with), each of them is in
    its file, and no other file of the directory or below it has been
    written to, neither the file of the failing collection nor the files of
    those after it. *)
Theorem save_stops_at_first_failure
  (w : world) (pre post : list string) (n : string) :
  modifiedCollections w = pre ++ n :: post ->
  flushable w n = false ->
  (modifiedCollections (save w) = modifiedCollections w /\
   console (save w) = console w ++ [SaveError]) /\
  (forallb (flushable w) pre = true ->
   forallb plain pre = true ->
   intact w ->
   (forall m, m ∈ pre ->
              Fs.readFile (m +:+ ".json") (files (save w))
              = Fs.Document <$> wrapper depth (heap w) m (collection w m)) /\
   (forall f, (forall m, m ∈ pre -> f <> m +:+ ".json") ->
              Fs.readFile f (files (save w)) = Fs.readFile f (files w))).
Proof.
  intros Hm Hn. split.
  - pose proof (flush_fails w n (modifiedCollections w) (files w)
                  (fun _ H => H)) as Hf.
    rewrite Hm in Hf at 1.
    specialize (Hf ltac:(apply elem_of_app; right; constructor) Hn).
    unfold Dire.save. destruct (flush _ _ _ _) as [fs ok].
    simpl in Hf. by subst ok.
  - intros Hpre Hplain _. apply Forall_plain_sep in Hplain.
    unfold Dire.save.
    rewrite Hm, (flush_stops w pre n post _ (fun _ => eq_refl) Hplain Hpre Hn).
    cbn. rewrite Forall_forall in Hplain. split.
    + intros m Hin. rewrite <- file_of_plain by auto.
      apply flush_written; [by apply Forall_forall| |done].
      by rewrite (flush_completes w pre _ (fun _ => eq_refl))
        by (by apply Forall_forall).
    + intros f Hf. apply flush_other.
      intros (m & -> & Hin)%list_elem_of_fmap.
      apply (Hf m Hin). by apply file_of_plain, Hplain.
Qed.

(** When every modified collection can be written, [save] writes them all
    and clears the modified set. *)
Lemma save_flushes w :
  Forall (fun m => Fs.has_sep m = false) (modifiedCollections w) ->
  flushes w = true ->
  modifiedCollections (save w) = [] /\
  console (save w) = console w /\
  heap (save w) = heap w /\ data (save w) = data w /\
  isLoaded (save w) = isLoaded w /\
  files (save w)
  = (flush (modifiedCollections w) (heap w) (data w) (files w)).1 /\
  (flush (modifiedCollections w) (heap w) (data w) (files w)).2 = true.
Proof.
  intros Hs Hf. unfold Dire.save.
  pose proof (flush_completes w (modifiedCollections w) (files w)
                (fun _ => eq_refl) Hs) as Hc.
  fold (flushes w) in Hc. rewrite Hf in Hc.
  destruct (flush _ _ _ _) as [fs ok]. simpl in Hc. subst ok. done.
Qed.

Lemma save_memory w :
  heap (save w) = heap w /\ data (save w) = data w /\
  isLoaded (save w) = isLoaded w.
Proof.
  unfold Dire.save. by destruct (flush _ _ _ _) as [fs []].
Qed.

Lemma save_other w f :
  f ∉ file_of <$> modifiedCollections w ->
  Fs.readFile f (files (save w)) = Fs.readFile f (files w).
Proof.
  intros Hf.
  pose proof (flush_other (modifiedCollections w) (heap w) (data w) f
                (files w) Hf) as Ho.
  unfold Dire.save. by destruct (flush _ _ _ _) as [fs []].
Qed.

Lemma save_is_dir w f :
  Forall (fun m => Fs.has_sep m = false) (modifiedCollections w) ->
  Fs.is_dir f (files (save w)) = Fs.is_dir f (files w).
Proof.
  intros Hs.
  pose proof (flush_is_dir (modifiedCollections w) (heap w) (data w) f
                (files w) Hs) as Ho.
  unfold Dire.save. by destruct (flush _ _ _ _) as [fs []].
Qed.

Lemma drop_modified C w :
  modifiedCollections (drop C w) = modifiedCollections w.
Proof. unfold drop. by destruct (Fs.readFile _ _). Qed.

Lemma drop_file C w : Fs.readFile (file_of C) (files (drop C w)) = None.
Proof.
  unfold drop.
  destruct (Fs.readFile (file_of C) (files w)) eqn:E; simpl; [|exact E].
  apply readFile_unlink.
Qed.

Lemma drop_is_dir C w f :
  Fs.is_dir f (files w) = false -> Fs.is_dir f (files (drop C w)) = false.
Proof.
  unfold drop. destruct (Fs.readFile _ _); simpl; [|done].
  apply is_dir_unlink.
Qed.

Lemma drop_listed C w f :
  f ∈ Fs.readdir (files (drop C w)) ->
  f ∈ Fs.readdir (files w) /\
  (f = file_of C -> Fs.is_dir (file_of C) (files w) = true).
Proof.
  unfold drop. destruct (Fs.readFile (file_of C) (files w)) eqn:E; simpl.
  - apply readdir_unlink.
  - intros Hf. split; [done|]. intros ->.
    apply elem_of_readdir in Hf as (_ & k & Hk & Hseg).
    apply readFile_None in E.
    destruct (first_segment_below k) as [Hk'|Hk'].
    + rewrite Hk' in Hseg. by subst.
    + rewrite Hseg in Hk'. unfold Fs.is_dir. apply existsb_exists.
      apply list_elem_of_fmap in Hk as ([k' c] & -> & Hk).
      exists (k', c). split; [by apply list_elem_of_In|done].
Qed.

(** A collection with a name without separator that is not marked has its
    file deleted by [drop], and the next [save] does not bring it back. *)
Lemma drop_save_removes_file w C :
  Fs.has_sep C = false ->
  Forall (fun m => Fs.has_sep m = false) (modifiedCollections w) ->
  Fs.is_dir (file_of C) (files w) = false ->
  C ∉ modifiedCollections w ->
  Fs.readFile (file_of C) (files (save (drop C w))) = None /\
  file_of C ∉ Fs.readdir (files (save (drop C w))).
Proof.
  intros HC Hs Hdir Hc.
  assert (Hr : Fs.readFile (file_of C) (files (save (drop C w))) = None).
  { rewrite save_other, drop_file; [done|].
    rewrite drop_modified. by apply not_elem_of_files. }
  split; [exact Hr|].
  intros (_ & k & Hk & Hseg)%elem_of_readdir.
  destruct (first_segment_below k) as [Hk'|Hk'].
  - rewrite Hk' in Hseg. subst k. apply readFile_None in Hr. done.
  - rewrite Hseg in Hk'.
    assert (Hd : Fs.is_dir (file_of C) (files (save (drop C w))) = true).
    { unfold Fs.is_dir. apply existsb_exists.
      apply list_elem_of_fmap in Hk as ([k' c] & -> & Hk).
      exists (k', c). split; [by apply list_elem_of_In|done]. }
    rewrite save_is_dir in Hd by (by rewrite drop_modified).
    by rewrite drop_is_dir in Hd.
Qed.

End Flush.

(** ** The modified set and the directory *)

Section InStep.

Variable write_fails : string -> bool.
Variable depth : nat.

Local Abbreviation exec := (Dire.exec write_fails depth).
Local Abbreviation run := (Dire.run write_fails depth).
Local Abbreviation flush := (Dire.flush write_fails depth).
Local Abbreviation save := (Dire.save write_fails depth).
Local Abbreviation owned := (Dire.owned depth).
Local Abbreviation canonical := (Dire.canonical depth).
Local Abbreviation admissible := (Dire.admissible depth).
Local Abbreviation admissible_run := (Dire.admissible_run write_fails depth).
Local Abbreviation in_step := (Dire.in_step depth).

Lemma stringify_elems_eq (f g : val -> stringified) vs :
  (forall v, v ∈ vs -> g v = f v) ->
  stringify_elems g vs = stringify_elems f vs.
Proof.
  induction vs as [|v vs IH]; simpl; intros H; [reflexivity|].
  rewrite (H v) by constructor.
  rewrite IH; [reflexivity|]. intros; apply H. by constructor.
Qed.

Lemma stringify_members_eq (f g : val -> stringified) fs :
  (forall e, e ∈ fs -> g e.2 = f e.2) ->
  stringify_members g fs = stringify_members f fs.
Proof.
  induction fs as [|[k v] fs IH]; simpl; intros H; [reflexivity|].
  pose proof (H (k, v) ltac:(constructor)) as E. simpl in E. rewrite E.
  rewrite IH; [reflexivity|]. intros; apply H. by constructor.
Qed.

(** The serializer writes the same in two heaps that agree on the objects
    it goes through. *)
Lemma stringify_agree n : forall h h' v,
  (forall l, l ∈ reads n h v -> h' !! l = h !! l) ->
  stringify n h' v = stringify n h v.
Proof.
  induction n as [|n IH]; intros h h' v Hag.
  - by destruct v.
  - destruct v as [| | | | |l]; try reflexivity. simpl in *.
    rewrite (Hag l) by constructor.
    destruct (h !! l) as [[vs|fs]|] eqn:Hl; [| |reflexivity].
    + rewrite (stringify_elems_eq (stringify n h) (stringify n h'));
        [reflexivity|].
      intros v Hv. apply IH. intros l' Hl'. apply Hag. constructor.
      apply list_elem_of_In, in_flat_map. exists v.
      split; by apply list_elem_of_In.
    + rewrite (stringify_members_eq (stringify n h) (stringify n h'));
        [reflexivity|].
      intros e He. apply IH. intros l' Hl'. apply Hag. constructor.
      apply list_elem_of_In, in_flat_map. exists e.
      split; by apply list_elem_of_In.
Qed.

Lemma stringify_undefined n h : stringify n h VUndef = SUndefined.
Proof. by destruct n. Qed.

Lemma wrapper_agree h h' n v :
  (forall l, l ∈ reads depth h v -> h' !! l = h !! l) ->
  wrapper depth h' n v = wrapper depth h n v.
Proof.
  intros H. unfold wrapper. by rewrite (stringify_agree depth h h' v H).
Qed.

Lemma wrapper_extend h h' n v j :
  h `prefix_of` h' -> wrapper depth h n v = Some j ->
  wrapper depth h' n v = Some j.
Proof.
  intros Hp. unfold wrapper. intros Hw.
  rewrite (stringify_extend depth h h' v Hp); [done|].
  by destruct (stringify depth h v).
Qed.

Lemma wrapper_canonical h n v j :
  wrapper depth h n v = Some j -> canonical n (Fs.Document j) = true.
Proof.
  unfold wrapper. destruct (stringify depth h v) as [| |x] eqn:Hs;
    [done| |]; intros [= <-]; [done|].
  simpl. rewrite String.eqb_refl. apply Nat.leb_le.
  by eapply stringify_nesting.
Qed.

Lemma owned_spec fs :
  owned fs = true <->
  forall f name,
    f ∈ Fs.readdir fs -> Fs.strip_suffix ".json" f = Some name ->
    ordinary name = true /\ Fs.is_dir f fs = false /\
    exists c, Fs.readFile f fs = Some c /\ canonical name c = true.
Proof.
  unfold Dire.owned. rewrite forallb_forall. split.
  - intros H f name Hf Hs. specialize (H f (proj1 (list_elem_of_In _ _) Hf)).
    rewrite Hs in H. apply andb_true_iff in H as [H Hc].
    apply andb_true_iff in H as [Ho Hd]. apply negb_true_iff in Hd.
    destruct (Fs.readFile f fs) as [c|]; [eauto|discriminate].
  - intros H f Hf. apply list_elem_of_In in Hf.
    destruct (Fs.strip_suffix ".json" f) as [name|] eqn:Hs; [|done].
    destruct (H f name Hf Hs) as (Ho & Hd & c & -> & Hc).
    by rewrite Ho, Hd, Hc.
Qed.

Lemma owned_writeFile fs n c :
  owned fs = true ->
  plain n = true ->
  Fs.is_dir (file_of n) fs = false ->
  canonical n c = true ->
  owned (Fs.writeFile (file_of n) c fs) = true.
Proof.
  rewrite !owned_spec. intros Ho Hn Hd Hc f name Hf Hs.
  pose proof (plain_sep n Hn) as Hsep.
  rewrite file_of_plain in * by done.
  assert (Hsj : Fs.has_sep (n +:+ ".json") = false).
  { rewrite has_sep_append. simpl. by rewrite Hsep. }
  apply readdir_writeFile in Hf as [->|Hf];
    [| |done|apply entry_name_json].
  - rewrite strip_suffix_append in Hs. injection Hs as <-.
    split; [by apply plain_ordinary|].
    rewrite is_dir_writeFile by done. split; [done|].
    exists c. by rewrite readFile_writeFile.
  - destruct (Ho f name Hf Hs) as (Hon & Hdn & c' & Hr & Hc').
    split; [done|]. rewrite is_dir_writeFile by done. split; [done|].
    destruct (decide (f = n +:+ ".json")) as [->|Hne].
    + rewrite strip_suffix_append in Hs. injection Hs as <-.
      exists c. by rewrite readFile_writeFile.
    + exists c'. by rewrite readFile_writeFile_ne.
Qed.

Lemma owned_flush names h d : forall fs,
  forallb plain names = true ->
  owned fs = true ->
  owned (flush names h d fs).1 = true.
Proof.
  induction names as [|m names IH]; simpl; intros fs Hp Ho; [done|].
  apply andb_true_iff in Hp as [Hm Hp].
  destruct (wrapper _ _ _ _) as [j|] eqn:Hw; [|done].
  destruct (write_fails _); [done|]. simpl.
  destruct (Fs.is_dir (file_of m) fs) eqn:Hd; [done|].
  apply IH; [done|]. apply owned_writeFile; try done.
  by eapply wrapper_canonical.
Qed.

Lemma owned_drop C w :
  owned (files w) = true -> owned (files (drop C w)) = true.
Proof.
  rewrite !owned_spec. intros Ho f name Hf Hs.
  apply drop_listed in Hf as [Hf Hdir].
  destruct (Ho f name Hf Hs) as (Hon & Hdn & c & Hr & Hc).
  split; [done|]. split; [by apply drop_is_dir|].
  assert (Hne : f <> file_of C).
  { intros ->. rewrite Hdir in Hdn; done. }
  exists c. split; [|done]. unfold drop.
  destruct (Fs.readFile (file_of C) (files w)); simpl; [|done].
  by rewrite readFile_unlink_ne.
Qed.

Lemma in_step_new w : owned (files w) = true -> in_step (new w).
Proof.
  intros Ho. split; [|split; [|split]]; try done.
  intros n [v Hv]. simpl in Hv. by rewrite lookup_empty in Hv.
Qed.

(** A call that rebinds its name and allocates keeps the store in step. *)
Lemma in_step_rebind w N v ext :
  plain N = true -> in_step w ->
  in_step
    (markCollectionAsModified N
       {| heap := heap w ++ ext; data := <[N := v]> (data w);
          modifiedCollections := modifiedCollections w;
          isLoaded := isLoaded w; files := files w; console := console w |}).
Proof.
  intros HN (Hb & Hm & Ho & Hs). split; [|split; [|split]]; simpl.
  - intros n [x Hx]. destruct (decide (n = N)) as [->|Hne]; [done|].
    rewrite lookup_insert_ne in Hx by done. by apply Hb.
  - by apply set_add_plain.
  - done.
  - intros n x Hx Hn. rewrite elem_of_set_add in Hn.
    assert (Hne : n <> N) by tauto.
    rewrite lookup_insert_ne in Hx by done.
    destruct (Hs n x Hx) as (j & Hw & Hr); [tauto|].
    exists j. split; [|done].
    eapply wrapper_extend; [|exact Hw]. by apply prefix_app_r.
Qed.

(** A call that writes in place to objects that are part of no other
    collection outside the modified set keeps the store in step. *)
Lemma in_step_write w N h' :
  plain N = true -> in_step w ->
  (forall n v l,
      data w !! n = Some v -> n <> N -> n ∉ modifiedCollections w ->
      l ∈ reads depth (heap w) v -> h' !! l = heap w !! l) ->
  in_step
    (markCollectionAsModified N
       {| heap := h'; data := data w;
          modifiedCollections := modifiedCollections w;
          isLoaded := isLoaded w; files := files w; console := console w |}).
Proof.
  intros HN (Hb & Hm & Ho & Hs) Hfr. split; [|split; [|split]]; simpl.
  - done.
  - by apply set_add_plain.
  - done.
  - intros n x Hx Hn. rewrite elem_of_set_add in Hn.
    destruct (Hs n x Hx) as (j & Hw & Hr); [tauto|].
    exists j. split; [|done]. rewrite <- Hw. apply wrapper_agree.
    intros l Hl. apply (Hfr n x l Hx); tauto.
Qed.

Lemma admissible_spec c w N :
  name_of c = Some N ->
  admissible c w = true ->
  plain N = true /\
  forall n v x,
    data w !! n = Some v -> n <> N -> n ∉ modifiedCollections w ->
    x ∈ written c w -> part_of depth (heap w) v x = false.
Proof.
  intros Hn. unfold Dire.admissible. rewrite Hn.
  intros [Hp Ha]%andb_true_iff. split; [done|].
  intros n v x Hv Hne Hnm Hx.
  rewrite forallb_forall in Ha.
  specialize (Ha (n, v)). simpl in Ha.
  assert (Hin : In (n, v) (map_to_list (data w))).
  { apply list_elem_of_In. by apply elem_of_map_to_list. }
  specialize (Ha Hin).
  apply orb_true_iff in Ha as [Ha|Ha].
  - apply orb_true_iff in Ha as [Ha|Ha].
    + by apply String.eqb_eq in Ha.
    + by apply bool_decide_eq_true in Ha.
  - rewrite forallb_forall in Ha.
    apply negb_true_iff. apply Ha. by apply list_elem_of_In.
Qed.

Lemma in_step_save w : in_step w -> in_step (save w).
Proof.
  intros (Hb & Hm & Ho & Hs).
  pose proof (Forall_plain_sep _ Hm) as Hsep.
  pose proof (flush_completes write_fails depth w (modifiedCollections w)
                (files w) (fun _ => eq_refl) Hsep) as Hc.
  pose proof (owned_flush (modifiedCollections w) (heap w) (data w) (files w)
                Hm Ho) as Hof.
  pose proof (fun f => flush_other write_fails depth (modifiedCollections w)
                         (heap w) (data w) f (files w)) as Hoth.
  pose proof (fun n => flush_written write_fails depth (heap w) (data w)
                         (modifiedCollections w) n (files w) Hsep) as Hwr.
  assert (Hclean : forall n v,
            data w !! n = Some v -> n ∉ modifiedCollections w ->
            exists j, wrapper depth (heap w) n v = Some j /\
                      Fs.readFile (file_of n)
                        (flush (modifiedCollections w) (heap w) (data w)
                           (files w)).1 = Some (Fs.Document j)).
  { intros n v Hv Hn. destruct (Hs n v Hv Hn) as (j & Hw & Hr).
    exists j. split; [done|]. rewrite Hoth; [done|].
    apply not_elem_of_files; [|done|done].
    apply plain_sep, Hb. by eexists. }
  unfold Dire.save.
  destruct (flush _ _ _ _) as [fs ok]. simpl in *.
  destruct ok; (split; [|split; [|split]]); simpl; try done.
  intros n v Hv _.
  destruct (decide (n ∈ modifiedCollections w)) as [Hin|Hnin];
    [|by apply Hclean].
  specialize (Hwr n eq_refl Hin). rewrite Hv in Hwr. simpl in Hwr.
  symmetry in Hc. rewrite forallb_forall in Hc.
  specialize (Hc n (proj1 (list_elem_of_In _ _) Hin)).
  unfold Dire.flushable, collection in Hc. rewrite Hv in Hc. simpl in Hc.
  destruct (wrapper depth (heap w) n v) as [j|]; [|done].
  exists j. done.
Qed.

Lemma in_step_drop w C : plain C = true -> in_step w -> in_step (drop C w).
Proof.
  intros HC (Hb & Hm & Ho & Hs).
  assert (Hd : data (drop C w) = base.delete C (data w))
    by (unfold drop; by destruct (Fs.readFile _ _)).
  assert (Hh : heap (drop C w) = heap w)
    by (unfold drop; by destruct (Fs.readFile _ _)).
  split; [|split; [|split]].
  - intros n [v Hv]. rewrite Hd in Hv.
    apply lookup_delete_Some in Hv as [_ Hv]. apply Hb. by eexists.
  - by rewrite drop_modified.
  - by apply owned_drop.
  - intros n v. rewrite Hd, Hh, drop_modified.
    intros [Hne Hv]%lookup_delete_Some Hn.
    destruct (Hs n v Hv Hn) as (j & Hw & Hr).
    exists j. split; [done|].
    assert (Hf : file_of C <> file_of n).
    { intros E. apply file_of_inj in E; [done|by apply plain_sep|].
      apply plain_sep, Hb. by eexists. }
    unfold drop. destruct (Fs.readFile (file_of C) (files w)); simpl; [|done].
    by rewrite readFile_unlink_ne.
Qed.

(** The loop of [load] over a directory that is the store's own binds each
    name to what its file holds. *)
Lemma load_files_in_step fs (modified : list string) :
  owned fs = true ->
  forall names h d,
    (forall f, f ∈ names -> f ∈ Fs.readdir fs) ->
    (forall n, is_Some (d !! n) -> plain n = true) ->
    (forall n v, d !! n = Some v -> n ∉ modified ->
       exists j, wrapper depth h n v = Some j /\
                 Fs.readFile (file_of n) fs = Some (Fs.Document j)) ->
    let r := load_files names fs h d in
    (forall n, is_Some (r.1.2 !! n) -> plain n = true) /\
    (forall n v, r.1.2 !! n = Some v -> n ∉ modified ->
       exists j, wrapper depth r.1.1 n v = Some j /\
                 Fs.readFile (file_of n) fs = Some (Fs.Document j)).
Proof.
  intros Ho names.
  induction names as [|file rest IH]; intros h d Hin Hb Hs; simpl; [done|].
  assert (Hrest : forall f, f ∈ rest -> f ∈ Fs.readdir fs)
    by (intros; apply Hin; by constructor).
  assert (Hfile : file ∈ Fs.readdir fs) by (apply Hin; constructor).
  destruct (Fs.strip_suffix ".json" file) as [name|] eqn:Hstrip;
    [|by apply IH].
  rewrite (listed_join file fs Hfile).
  destruct (proj1 (owned_spec fs) Ho file name Hfile Hstrip)
    as (Hord & _ & c & Hr & Hc).
  apply strip_suffix_Some in Hstrip. subst file.
  assert (Hsep : Fs.has_sep name = false).
  { apply has_sep_listed in Hfile. rewrite has_sep_append in Hfile.
    by apply orb_false_iff in Hfile as [? _]. }
  assert (Hplain : plain name = true).
  { unfold plain. by rewrite Hsep, Hord. }
  rewrite <- (file_of_plain name Hsep) in Hr.
  rewrite <- (file_of_plain name Hsep). rewrite Hr.
  destruct c as [|[| | | | |ms]]; try discriminate.
  destruct ms as [|[k x] [|? ?]]; try discriminate.
  - (* the object without members *)
    rewrite revive_object. cbn [revive_members].
    rewrite get_new_record. cbn [field]. apply IH; [done| |].
    + intros n [v Hv]. destruct (decide (n = name)) as [->|Hne]; [done|].
      rewrite lookup_insert_ne in Hv by done. apply Hb. by eexists.
    + intros n v Hv Hn. destruct (decide (n = name)) as [->|Hne].
      * rewrite lookup_insert_eq in Hv. injection Hv as <-.
        exists (JObj []). split; [|done].
        unfold wrapper. by rewrite stringify_undefined.
      * rewrite lookup_insert_ne in Hv by done.
        destruct (Hs n v Hv Hn) as (j & Hw & Hf). exists j. split; [|done].
        eapply wrapper_extend; [|exact Hw]. by apply prefix_app_r.
  - (* the object whose one member is the collection *)
    simpl in Hc. apply andb_true_iff in Hc as [Hk Hx].
    apply String.eqb_eq in Hk. subst k. apply Nat.leb_le in Hx.
    destruct (revive_stringify depth x h Hx) as [Hp Htext].
    rewrite revive_object. cbn [revive_members].
    destruct (revive x h) as [v h1] eqn:Hrev. simpl in Hp, Htext.
    rewrite get_new_record. cbn [field].
    rewrite String.eqb_refl. apply IH; [done| |].
    + intros n [v' Hv]. destruct (decide (n = name)) as [->|Hne]; [done|].
      rewrite lookup_insert_ne in Hv by done. apply Hb. by eexists.
    + intros n v' Hv Hn. destruct (decide (n = name)) as [->|Hne].
      * rewrite lookup_insert_eq in Hv. injection Hv as <-.
        exists (JObj [(name, x)]). split; [|done]. unfold wrapper.
        rewrite (stringify_extend depth h1); [by rewrite Htext| |].
        -- by apply prefix_app_r.
        -- by rewrite Htext.
      * rewrite lookup_insert_ne in Hv by done.
        destruct (Hs n v' Hv Hn) as (j & Hw & Hf). exists j. split; [|done].
        eapply wrapper_extend; [|exact Hw].
        etrans; [exact Hp|]. by apply prefix_app_r.
Qed.

Lemma in_step_load w : in_step w -> in_step (load w).
Proof.
  intros (Hb & Hm & Ho & Hs).
  destruct (load_files_in_step (files w) (modifiedCollections w) Ho
              (Fs.readdir (files w)) (heap w) (data w) (fun _ H => H) Hb Hs)
    as [Hb' Hs'].
  unfold load. destruct (load_files _ _ _ _) as [[h d] ok]. simpl in *.
  by destruct ok.
Qed.

Lemma in_step_exec c w :
  in_step w -> admissible c w = true -> in_step (exec c w).
Proof.
  intros Hi Ha.
  destruct c as [N items|N|N items|N f u|N f| |]; cbn [Dire.exec].
  - (* add *)
    destruct (admissible_spec (AddCall N items) w N eq_refl Ha) as [HN _].
    assert (Hd : (items = None \/ items = Some VUndef) \/
                 exists v, items = Some v /\ v <> VUndef).
    { destruct items as [[| | | | |]|]; eauto; right; eexists; done. }
    destruct Hd as [Hd|(v & -> & Hv)].
    + rewrite add_eq_default by done. by apply in_step_rebind.
    + rewrite add_eq_given by done.
      pose proof (in_step_rebind w N v [] HN Hi) as H.
      by rewrite app_nil_r in H.
  - (* drop *)
    apply in_step_drop; [|done].
    unfold Dire.admissible in Ha. simpl in Ha.
    by apply andb_true_iff in Ha as [? _].
  - (* insert *)
    destruct (admissible_spec (InsertCall N items) w N eq_refl Ha)
      as [HN Hap].
    unfold insert.
    destruct (push_all _ _ (heap w)) as [h'|] eqn:Hp; cbn [snd]; [|done].
    apply push_all_frame in Hp as [_ Hfr].
    apply in_step_write; [done..|].
    intros n v l Hv Hne Hnm Hl. apply Hfr. intros E.
    specialize (Hap n v (VRef l) Hv Hne Hnm).
    simpl in Hap. rewrite E in Hap.
    rewrite bool_decide_eq_false in Hap. apply Hap; [|done]. constructor.
  - (* update *)
    destruct (admissible_spec (UpdateCall N f u) w N eq_refl Ha)
      as [HN Hap].
    unfold update.
    destruct (as_array (heap w) (collection w N)) as [vs|] eqn:Hc;
      cbn [snd]; [|done].
    destruct (update_frame (default always f) u vs (heap w))
      as (_ & _ & Hfr).
    apply in_step_write; [done..|].
    intros n v l Hv Hne Hnm Hl. apply Hfr. intros Hin.
    specialize (Hap n v (VRef l) Hv Hne Hnm).
    simpl in Hap. rewrite Hc in Hap.
    rewrite bool_decide_eq_false in Hap. by apply Hap.
  - (* delete *)
    destruct (admissible_spec (DeleteCall N f) w N eq_refl Ha) as [HN _].
    destruct (as_array (heap w) (collection w N)) as [vs|] eqn:Hc.
    + rewrite (delete_eq w N f vs Hc). cbn [snd]. by apply in_step_rebind.
    + unfold delete. by rewrite Hc.
  - by apply in_step_save.
  - by apply in_step_load.
Qed.

Lemma in_step_run cs : forall w,
  in_step w -> admissible_run cs w = true -> in_step (run cs w).
Proof.
  induction cs as [|c cs IH]; intros w Hi Ha; [done|].
  simpl in Ha. apply andb_true_iff in Ha as [Hc Ha].
  apply IH; [by apply in_step_exec|done].
Qed.


End InStep.

(** ** Loading *)

Section Loading.

Lemma revive_not_nullish j h :
  j <> JNull -> (revive j h).1 <> VNull /\ (revive j h).1 <> VUndef.
Proof.
  destruct j; try done; intros _.
  - rewrite revive_array. by destruct (revive_elems _ _).
  - rewrite revive_object. by destruct (revive_members _ _).
Qed.

Lemma get_Some h v k : v <> VNull -> v <> VUndef -> is_Some (get h v k).
Proof.
  intros Hn Hu. destruct v as [| | | |s|l]; simpl; try done.
  - destruct (String.eqb k "length"); [done|].
    destruct (array_index k); [|done]. by destruct (String.get _ _).
  - destruct (h !! l) as [[vs|fs]|]; [|done|done].
    destruct (String.eqb k "length"); [done|]. by destruct (array_index k).
Qed.

(** Reading the wrapper [save] wrote for [C] back gives the JSON value of
    the collection. *)
Lemma revive_wrapper C j h :
  exists v h1,
    revive (JObj [(C, j)]) h = (VRef (length h1), h1 ++ [ORec [(C, v)]]) /\
    h `prefix_of` h1 /\ denotes h1 v j.
Proof.
  pose proof (revive_prefix j h) as Hp.
  pose proof (revive_denotes (nesting j) j h (le_n _)) as Hd.
  rewrite revive_object. simpl. destruct (revive j h) as [v h1]. eauto.
Qed.

Lemma denotes_stable j h h' v :
  h `prefix_of` h' -> denotes h v j -> denotes h' v j.
Proof. intros. by apply (denotes_extend (nesting j) h). Qed.

Lemma wrapper_member C j h :
  exists v,
    get (revive (JObj [(C, j)]) h).2 (revive (JObj [(C, j)]) h).1 C = Some v /\
    denotes (revive (JObj [(C, j)]) h).2 v j.
Proof.
  destruct (revive_wrapper C j h) as (v & h1 & Hw & _ & Hv).
  rewrite Hw. cbn [fst snd]. rewrite get_new_record. cbn [field].
  rewrite String.eqb_refl. exists v. split; [done|].
  apply (denotes_stable j h1); [by apply prefix_app_r|done].
Qed.

(** The loop of [load] gets through the entries that are readable. *)
Lemma load_files_ok names fs : forall h d,
  (load_files names fs h d).2 = forallb (readable fs) names.
Proof.
  induction names as [|file rest IH]; intros h d; simpl; [reflexivity|].
  unfold readable at 1.
  destruct (Fs.strip_suffix ".json" file) as [name|]; [|apply IH].
  destruct (Fs.readFile (Fs.join file) fs) as [[|j]|]; try reflexivity.
  assert (Hj : j = JNull \/ j <> JNull)
    by (destruct j; [by left|by right..]).
  destruct Hj as [->|Hj]; [reflexivity|].
  destruct (revive_not_nullish j h Hj) as [Hv1 Hv2].
  destruct (revive j h) as [fileData h1]. simpl in Hv1, Hv2.
  destruct (get_Some h1 fileData name Hv1 Hv2) as [v ->].
  rewrite IH. by destruct j.
Qed.

Lemma load_files_prefix names fs : forall h d,
  h `prefix_of` (load_files names fs h d).1.1.
Proof.
  induction names as [|file rest IH]; intros h d; simpl; [done|].
  destruct (Fs.strip_suffix ".json" file) as [name|]; [|apply IH].
  destruct (Fs.readFile (Fs.join file) fs) as [[|j]|]; try done.
  pose proof (revive_prefix j h) as Hp.
  destruct (revive j h) as [fileData h1]. simpl in Hp.
  destruct (get h1 fileData name); [|done].
  etrans; [exact Hp|apply IH].
Qed.

(** The loop binds no name but those of the entries it is given. *)
Lemma load_files_unlisted names fs n : forall h d,
  (n +:+ ".json") ∉ names -> (load_files names fs h d).1.2 !! n = d !! n.
Proof.
  induction names as [|file rest IH]; intros h d Hn; simpl; [done|].
  apply not_elem_of_cons in Hn as [Hne Hn].
  destruct (Fs.strip_suffix ".json" file) as [name|] eqn:Hs; [|by apply IH].
  apply strip_suffix_Some in Hs. subst file.
  destruct (Fs.readFile _ fs) as [[|j]|]; try done.
  destruct (revive j h) as [fileData h1].
  destruct (get h1 fileData name); [|done].
  rewrite IH by done. apply lookup_insert_ne. by intros ->.
Qed.

(** What a run of [load] that gets through binds a name to, when the file
    of the name is listed: a value read from that file. *)
Lemma load_files_bound fs C j (Q : Js.heap -> val -> Prop) :
  (forall h h' v, h `prefix_of` h' -> Q h v -> Q h' v) ->
  Fs.readFile (file_of C) fs = Some (Fs.Document j) ->
  (forall h, exists v,
      get (revive j h).2 (revive j h).1 C = Some v /\ Q (revive j h).2 v) ->
  forall names h d,
    (load_files names fs h d).2 = true ->
    (C +:+ ".json") ∈ names \/ (exists v, d !! C = Some v /\ Q h v) ->
    exists v, (load_files names fs h d).1.2 !! C = Some v /\
              Q (load_files names fs h d).1.1 v.
Proof.
  intros Hstable Hfile Hval names.
  induction names as [|file rest IH]; intros h d Hok Hpre; simpl in *.
  - destruct Hpre as [H|H]; [by apply elem_of_nil in H|done].
  - destruct (Fs.strip_suffix ".json" file) as [name|] eqn:Hs.
    2:{ apply IH; [done|]. destruct Hpre as [H|H]; [|by right].
        apply elem_of_cons in H as [E|H]; [|by left].
        rewrite <- E in Hs. by rewrite strip_suffix_append in Hs. }
    apply strip_suffix_Some in Hs. subst file.
    fold (file_of name) in *.
    destruct (Fs.readFile (file_of name) fs) as [[|j']|] eqn:Hr; try done.
    pose proof (revive_prefix j' h) as Hp.
    pose proof (Hval h) as Hv.
    destruct (revive j' h) as [fileData h1] eqn:Hrev. simpl in Hp.
    destruct (get h1 fileData name) as [v|] eqn:Hg; [|done].
    apply IH; [done|].
    destruct (String.eqb_spec name C) as [->|Hne].
    + right. rewrite Hfile in Hr. injection Hr as <-.
      rewrite Hrev in Hv. simpl in Hv. destruct Hv as (v' & Hg' & Hq).
      exists v. rewrite lookup_insert_eq. split; [done|]. congruence.
    + destruct Hpre as [H|(v0 & Hd & Hq)].
      * apply elem_of_cons in H as [E|H]; [|by left].
        pose proof (strip_suffix_append ".json" name) as E1.
        rewrite <- E, strip_suffix_append in E1. congruence.
      * right. exists v0. rewrite lookup_insert_ne by done. eauto.
Qed.

Lemma listed_collection fs C c :
  Fs.has_sep C = false ->
  Fs.readFile (file_of C) fs = Some c ->
  (C +:+ ".json") ∈ Fs.readdir fs.
Proof.
  intros Hsep Hr. rewrite file_of_plain in Hr by done.
  eapply listed_file; [|apply entry_name_json|exact Hr].
  rewrite has_sep_append. simpl. by rewrite Hsep.
Qed.

Lemma load_bound w C j (Q : Js.heap -> val -> Prop) :
  (forall h h' v, h `prefix_of` h' -> Q h v -> Q h' v) ->
  forallb (readable (files w)) (Fs.readdir (files w)) = true ->
  Fs.has_sep C = false ->
  Fs.readFile (file_of C) (files w) = Some (Fs.Document j) ->
  (forall h, exists v,
      get (revive j h).2 (revive j h).1 C = Some v /\ Q (revive j h).2 v) ->
  isLoaded (load w) = true /\
  exists v, data (load w) !! C = Some v /\ Q (heap (load w)) v.
Proof.
  intros Hstable Hok Hsep Hfile Hval.
  pose proof (load_files_ok (Fs.readdir (files w)) (files w) (heap w) (data w))
    as Hok'.
  rewrite Hok in Hok'.
  pose proof (load_files_bound (files w) C j Q Hstable Hfile Hval
                (Fs.readdir (files w)) (heap w) (data w) Hok'
                (or_introl (listed_collection _ C _ Hsep Hfile))) as Hb.
  unfold load. destruct (load_files _ _ _ _) as [[h d] ok].
  simpl in Hok', Hb. subst ok. done.
Qed.

Lemma readable_spec fs :
  forallb (readable fs) (Fs.readdir fs) = true <->
  forall f name,
    f ∈ Fs.readdir fs -> Fs.strip_suffix ".json" f = Some name ->
    exists j, Fs.readFile f fs = Some (Fs.Document j) /\ j <> JNull.
Proof.
  rewrite forallb_forall. split.
  - intros H f name Hf Hs. specialize (H f (proj1 (list_elem_of_In _ _) Hf)).
    unfold readable in H. rewrite Hs, (listed_join f fs Hf) in H.
    destruct (Fs.readFile f fs) as [[|j]|]; try discriminate.
    exists j. split; [done|]. by intros ->.
  - intros H f Hf. apply list_elem_of_In in Hf. unfold readable.
    destruct (Fs.strip_suffix ".json" f) as [name|] eqn:Hs; [|done].
    destruct (H f name Hf Hs) as (j & Hr & Hj).
    rewrite (listed_join f fs Hf), Hr. by destruct j.
Qed.

End Loading.

(** ** Saving and loading back *)

Section RoundTrip.

Variable write_fails : string -> bool.
Variable depth : nat.

Local Abbreviation flush := (Dire.flush write_fails depth).
Local Abbreviation save := (Dire.save write_fails depth).
Local Abbreviation flushes := (Dire.flushes write_fails depth).

Lemma wrapper_object h n v j :
  wrapper depth h n v = Some j -> exists ms, j = JObj ms.
Proof.
  unfold wrapper. destruct (stringify depth h v); [done| |]; intros [= <-]; eauto.
Qed.

(** The file [save] writes for a name without separator is one [load] gets
    through. *)
Lemma readable_writeFile fs n ms :
  Fs.has_sep n = false ->
  forallb (readable fs) (Fs.readdir fs) = true ->
  let fs' := Fs.writeFile (file_of n) (Fs.Document (JObj ms)) fs in
  forallb (readable fs') (Fs.readdir fs') = true.
Proof.
  intros Hn Hok fs'. subst fs'. rewrite file_of_plain by done.
  rewrite readable_spec in Hok. apply readable_spec. intros f name Hf Hs.
  destruct (decide (f = n +:+ ".json")) as [->|Hne].
  - rewrite readFile_writeFile. by eexists.
  - rewrite readFile_writeFile_ne by done.
    apply readdir_writeFile in Hf as [->|Hf]; [done|by eapply Hok| |].
    + rewrite has_sep_append. simpl. by rewrite Hn.
    + apply entry_name_json.
Qed.

Lemma flush_readable names h d : forall fs,
  Forall (fun m => Fs.has_sep m = false) names ->
  forallb (readable fs) (Fs.readdir fs) = true ->
  forallb (readable (flush names h d fs).1)
    (Fs.readdir (flush names h d fs).1) = true.
Proof.
  induction names as [|n names IH]; simpl; intros fs Hs Hok; [done|].
  apply Forall_cons in Hs as [Hn Hs].
  destruct (wrapper _ _ _ _) as [j|] eqn:Hw; [|done].
  destruct (_ || _); [done|]. apply IH; [done|].
  apply wrapper_object in Hw as [ms ->]. by apply readable_writeFile.
Qed.

(** What a complete [save] leaves in the directory for a collection of the
    modified set is what a new instance loads. *)
Lemma save_load_bound w n j h :
  Forall (fun m => Fs.has_sep m = false) (modifiedCollections w) ->
  flushes w = true ->
  forallb (readable (files w)) (Fs.readdir (files w)) = true ->
  n ∈ modifiedCollections w ->
  denotes (heap w) (collection w n) j ->
  let w' := load (new_in h (save w)) in
  denotes (heap w') (collection w' n) j /\ isLoaded w' = true.
Proof.
  intros Hs Hflush Hload Hn Hj w'. subst w'.
  destruct (save_flushes write_fails depth w Hs Hflush)
    as (_ & _ & _ & _ & _ & Hfiles & Hok).
  assert (Hsep : Fs.has_sep n = false).
  { rewrite Forall_forall in Hs. by apply Hs. }
  assert (Htext : stringify depth (heap w) (collection w n) = SText j).
  { apply denotes_stringify; [done|]. intros Hthrow.
    pose proof (proj1 (forallb_forall _ _) Hflush n
                  (proj1 (list_elem_of_In _ _) Hn)) as Hf.
    unfold Dire.flushable, wrapper in Hf. by rewrite Hthrow in Hf. }
  assert (Hfile : Fs.readFile (file_of n) (files (save w))
                  = Some (Fs.Document (JObj [(n, j)]))).
  { rewrite Hfiles, (flush_written write_fails depth) by done.
    fold (collection w n). unfold wrapper. by rewrite Htext. }
  destruct (load_bound (new_in h (save w)) n (JObj [(n, j)])
              (fun h v => denotes h v j)) as (Hl & v & Hd & Hq); try done.
  - intros h1 h2 v. apply denotes_stable.
  - cbn [files new_in]. rewrite Hfiles. by apply flush_readable.
  - apply wrapper_member.
  - split; [|done]. unfold collection. by rewrite Hd.
Qed.

(** C1, as the code has it: [add], [save], then [load] on a new instance
    over the same directory, in the same process or in another, give a
    collection that is structurally equal to the items that were added
    (both are the same JSON value).  The name is plain, the names of the
    modified set have no path separator, [this.data] has the prototype it
    was created with, [save] can write every collection of the modified
    set, and every entry of the directory with a name in [.json] is a file
    that parses to something other than [null]. *)
Theorem add_save_load_roundtrip
  (w : world) (C : string) (items : val) (j : json) :
  plain C = true ->
  Forall (fun n => Fs.has_sep n = false) (modifiedCollections w) ->
  intact w ->
  denotes (heap w) items j ->
  flushes (add C (Some items) w) = true ->
  forallb (readable (files w)) (Fs.readdir (files w)) = true ->
  (let w' := load (new (save (add C (Some items) w))) in
   denotes (heap w') (collection w' C) j /\ isLoaded w' = true) /\
  (forall h,
      let w' := load (new_in h (save (add C (Some items) w))) in
      denotes (heap w') (collection w' C) j /\ isLoaded w' = true).
Proof.
  intros HC Hm _ Hj Hflush Hload.
  assert (Hne : items <> VUndef) by (intros ->; inversion Hj).
  rewrite (add_eq_given w C items Hne) in *.
  set (w1 := markCollectionAsModified C _) in *.
  assert (Hany : forall h,
            let w' := load (new_in h (save w1)) in
            denotes (heap w') (collection w' C) j /\ isLoaded w' = true).
  { intros h. apply save_load_bound; try done.
    - apply Forall_forall. intros n [->|Hn]%elem_of_set_add.
      + by apply plain_sep.
      + rewrite Forall_forall in Hm. by apply Hm.
    - apply elem_of_set_add. by left.
    - unfold w1. rewrite collection_mark, collection_insert_eq. exact Hj. }
  split; [exact (Hany (heap (save w1)))|exact Hany].
Qed.

End RoundTrip.

(** ** The claims on the sample store *)

Section Samples.
Import Sample.

Lemma pets_denoted (w : world) (v : val) :
  heap w !! 4 = Some (pet "Oreo" "Cat") ->
  heap w !! 5 = Some (pet "Siria" "Dog") ->
  heap w !! 6 = Some (OArr [VRef 4; VRef 5]) ->
  v = petsData ->
  denotes (heap w) v pets.
Proof.
  intros H4 H5 H6 ->. eapply denotes_arr; [exact H6|].
  repeat constructor.
  - eapply denotes_obj; [exact H4|]. repeat constructor.
  - eapply denotes_obj; [exact H5|]. repeat constructor.
Qed.

(** C1 on the sample store: the pets come back from the directory. *)
Lemma add_save_load_roundtrip_witness :
  let w' :=
    load (new (save accepts_all depth (add "pets" (Some petsData) with_pets)))
  in
  denotes (heap w') (collection w' "pets") pets /\ isLoaded w' = true.
Proof.
  apply (add_save_load_roundtrip accepts_all depth with_pets "pets"
           petsData pets); try (vm_compute; reflexivity).
  - constructor.
  - apply pets_denoted; reflexivity.
Defined.

(** C1 fails as stated.  A collection whose name has a path separator is
    written below the directory, or not at all, and a new instance does not
    load it: once when the write goes through, once when it is refused. *)
Lemma add_save_load_roundtrip_counterexample :
  let w := add "a/b" (Some petsData) with_pets in
  let w1 := load (new (save accepts_all depth w)) in
  let w2 := load (new (save (refuses "a/b.json") depth w)) in
  denotes (heap w) (collection w "a/b") pets /\
  ~ denotes (heap w1) (collection w1 "a/b") pets /\
  ~ denotes (heap w2) (collection w2 "a/b") pets.
Proof.
  split; [apply pets_denoted; reflexivity|].
  split; intros H; vm_compute in H; inversion H.
Qed.

(** The same happens to a collection with a plain name when [save] stops
    before it gets to it, and when [load] stops before it gets to it. *)
Lemma add_save_load_behind_failure :
  let w := add "pets" (Some petsData) (add "logs" None with_pets) in
  let w1 := load (new (save (refuses "logs.json") depth w)) in
  let w2 :=
    load (new (save accepts_all depth (add "pets" (Some petsData) with_broken)))
  in
  denotes (heap w) (collection w "pets") pets /\
  collection w1 "pets" = VUndef /\
  collection w2 "pets" = VUndef.
Proof.
  split; [apply pets_denoted; reflexivity|].
  vm_compute. split; reflexivity.
Qed.

(** And to a collection with a plain name when a later name of the modified
    set has the same file: [./pets] is written over pets. *)
Lemma add_save_load_behind_shared_file :
  let w := add "./pets" None (add "pets" (Some petsData) with_pets) in
  let w1 := load (new (save accepts_all depth w)) in
  denotes (heap w) (collection w "pets") pets /\
  Fs.readFile "pets.json" (files w1)
  = Some (Fs.Document (JObj [("./pets", JArr [])])) /\
  collection w1 "pets" = VUndef.
Proof.
  split; [apply pets_denoted; reflexivity|].
  vm_compute. split; reflexivity.
Qed.

(** C2 on the sample store: users, logs and pets are modified, in this
    order, and the file of logs cannot be written. *)
Lemma save_stops_at_first_failure_witness :
  let w :=
    add "pets" (Some petsData)
      (add "logs" None (update "users" None birthday with_pets).2) in
  let w' := save (refuses "logs.json") depth w in
  modifiedCollections w' = ["users"; "logs"; "pets"] /\
  console w' = [SaveError] /\
  Fs.readFile "pets.json" (files w') = None.
Proof.
  intros w w'.
  destruct (save_stops_at_first_failure (refuses "logs.json") depth w
              ["users"] ["pets"] "logs")
    as [[Hm Hc] Hfiles]; [reflexivity..|].
  destruct Hfiles as [_ Hother]; [reflexivity..|].
  split; [exact Hm|]. split; [exact Hc|].
  assert (Hp : forall m, m ∈ ["users"] -> "pets.json" <> m +:+ ".json").
  { intros m ->%list_elem_of_singleton. discriminate. }
  exact (eq_trans (Hother "pets.json" Hp) eq_refl).
Defined.

(** C2 fails as stated: after the write for logs has failed, pets, which
    comes after it, is not flushed, and the modified set is not cleared. *)
Lemma save_stops_at_first_failure_counterexample :
  let w := add "pets" (Some petsData) (add "logs" None with_pets) in
  let w' := save (refuses "logs.json") depth w in
  flushable (refuses "logs.json") depth w "pets" = true /\
  Fs.readFile "pets.json" (files w') = None /\
  modifiedCollections w' <> [].
Proof. vm_compute. split; [reflexivity|]. split; [reflexivity|discriminate]. Qed.

(** C3 at the failing input: pets is added and saved, gets a record, and
    is dropped while it is still in the modified set.  [drop] deletes the
    file, and the next [save] writes it again, empty. *)
Theorem drop_save_leaves_modified_file :
  let before :=
    run accepts_all depth
      [AddCall "pets" (Some petsData); SaveCall; InsertCall "pets" oreo]
      with_pets in
  let dropped := drop "pets" before in
  let saved := save accepts_all depth dropped in
  Fs.readdir (files before) = ["users.json"; "README.md"; "pets.json"] /\
  modifiedCollections before = ["pets"] /\
  data dropped !! "pets" = None /\
  Fs.readdir (files dropped) = ["users.json"; "README.md"] /\
  Fs.readdir (files saved) = ["users.json"; "README.md"; "pets.json"] /\
  Fs.readFile "pets.json" (files saved) = Some (Fs.Document (JObj [])).
Proof. vm_compute. repeat split. Qed.



(** Why C4 is stated for plain names and for a directory that is the
    store's own.  Users is saved, and then [./users], whose file is the file
    of users: users is not marked, and its file does not show it.  And a
    collection loaded from a file that holds more than the collection is not
    marked, while a [save] of it would change the file. *)
Lemma unsaved_behind_shared_file :
  let w :=
    run accepts_all depth
      [AddCall "users" (Some petsData); SaveCall; AddCall "./users" None;
       SaveCall] (new with_pets) in
  ("users" ∉ modifiedCollections w) /\ is_Some (data w !! "users") /\
  unsaved depth w "users".
Proof.
  split; [|split].
  - vm_compute. apply not_elem_of_nil.
  - vm_compute. by eexists.
  - intros H. vm_compute in H. discriminate.
Qed.

Lemma unsaved_after_foreign_file :
  let w := run accepts_all depth [LoadCall] (new foreign) in
  ("users" ∉ modifiedCollections w) /\ is_Some (data w !! "users") /\
  unsaved depth w "users".
Proof.
  split; [|split].
  - vm_compute. apply not_elem_of_nil.
  - vm_compute. by eexists.
  - intros H. vm_compute in H. discriminate.
Qed.

(** C8 at the failing input: [findOne] is fulfilled with the record of the
    store, and [find] with an array of the records of the store; when the
    caller assigns to a member of what it got, the collection changes. *)
Theorem reads_return_live_records :
  let jane := findOne "users" (Some (named "Jane")) loaded in
  let all := find "users" None loaded in
  let w1 := caller_assign 1 "age" (VNum 30) jane.2 in
  let w2 := caller_assign 1 "age" (VNum 30) all.2 in
  jane.1 = Fulfilled (VRef 1) /\
  as_array (heap all.2) (collection all.2 "users") = Some [VRef 0; VRef 1] /\
  (exists l, all.1 = Fulfilled (VRef l) /\
             as_array (heap all.2) (VRef l) = Some [VRef 0; VRef 1]) /\
  stringify depth (heap loaded) (collection loaded "users") = SText users /\
  stringify depth (heap w1) (collection w1 "users")
  = SText (JArr [person "John" 29; person "Jane" 30]) /\
  stringify depth (heap w2) (collection w2 "users")
  = SText (JArr [person "John" 29; person "Jane" 30]).
Proof. vm_compute. repeat split. eexists. split; reflexivity. Qed.



End Samples.

(** * Further properties of the store *)

(** ** Insert *)

Section Insert.

Lemma push_all_append l xs : forall old h,
  h !! l = Some (OArr old) ->
  push_all (VRef l) xs h = Some (<[l := OArr (old ++ xs)]> h).
Proof.
  induction xs as [|x xs IH]; intros old h Hl; simpl.
  - by rewrite app_nil_r, list_insert_id.
  - rewrite Hl.
    rewrite (IH (old ++ [x])).
    + by rewrite list_insert_insert_eq, <- app_assoc.
    + apply list_lookup_insert_eq. by eapply lookup_lt_Some.
Qed.

Lemma push_all_missing c x xs h :
  as_array h c = None -> push_all c (x :: xs) h = None.
Proof.
  intros Hc. simpl. unfold push.
  destruct c as [| | | | |l]; try reflexivity.
  simpl in Hc. by destruct (h !! l) as [[|]|].
Qed.

Lemma insert_eq w C items l old :
  collection w C = VRef l ->
  heap w !! l = Some (OArr old) ->
  insert C items w =
  (Fulfilled tt,
   markCollectionAsModified C
     {| heap := <[l := OArr (old ++ pushed (heap w) items)]> (heap w);
        data := data w; modifiedCollections := modifiedCollections w;
        isLoaded := isLoaded w; files := files w; console := console w |}).
Proof.
  intros Hc Hl. unfold insert. rewrite Hc.
  fold (pushed (heap w) items).
  by rewrite (push_all_append l _ old (heap w) Hl).
Qed.

Lemma as_array_Some h v items :
  as_array h v = Some items ->
  exists l, v = VRef l /\ h !! l = Some (OArr items).
Proof.
  destruct v as [| | | | |l]; simpl; try discriminate.
  destruct (h !! l) as [[vs|]|] eqn:Hl; try discriminate.
  intros [= ->]. by exists l.
Qed.

(** X1: on an existing collection, [insert] is fulfilled and appends the
    items it is given after the records that are there, in the order given
    (a value that is not an array is appended as one record); it marks the
    collection and leaves the bindings and the directory as they are. *)
Theorem insert_appends
  (w : world) (C : string) (items : val) (old : list val) :
  as_array (heap w) (collection w C) = Some old ->
  let w' := (insert C items w).2 in
  (insert C items w).1 = Fulfilled tt /\
  as_array (heap w') (collection w' C)
  = Some (old ++ pushed (heap w) items) /\
  C ∈ modifiedCollections w' /\
  data w' = data w /\ files w' = files w.
Proof.
  intros Hc w'. subst w'.
  destruct (as_array_Some _ _ _ Hc) as (l & Hv & Hl).
  rewrite (insert_eq w C items l old Hv Hl). cbn [fst snd].
  split; [reflexivity|]. split; [|split; [|done]].
  - change (collection (markCollectionAsModified C _) C) with (collection w C).
    rewrite Hv. simpl. rewrite list_lookup_insert_eq; [done|].
    by eapply lookup_lt_Some.
  - apply elem_of_set_add. by left.
Qed.

Lemma insert_appends_witness :
  let w' := (insert "users" Sample.petsData Sample.with_pets).2 in
  as_array (heap w') (collection w' "users")
  = Some [VRef 0; VRef 1; VRef 4; VRef 5].
Proof.
  destruct (insert_appends Sample.with_pets "users" Sample.petsData
              [VRef 0; VRef 1]) as (_ & Ha & _); [reflexivity|].
  exact Ha.
Defined.

End Insert.

(** ** Calls on a collection that is not there *)

Section Missing.



End Missing.

(** ** Update *)

Section Update.

Lemma update_eq w C f u items :
  as_array (heap w) (collection w C) = Some items ->
  update C f u w =
  (Fulfilled tt,
   markCollectionAsModified C
     {| heap := foldl (update_step (default always f) u) (heap w) items;
        data := data w; modifiedCollections := modifiedCollections w;
        isLoaded := isLoaded w; files := files w; console := console w |}).
Proof. intros Hc. unfold update. by rewrite Hc. Qed.

Lemma update_none P u items : forall h,
  (forall x, x ∈ items -> P h x = false) ->
  foldl (update_step P u) h items = h.
Proof.
  induction items as [|x items IH]; intros h Hno; simpl; [reflexivity|].
  unfold update_step at 2. rewrite (Hno x) by constructor.
  apply IH. intros; apply Hno. by constructor.
Qed.

(** X3: an [update] whose predicate no record satisfies changes no object,
    so every record is as it was, member for member; the call is fulfilled
    and the collection is marked all the same. *)
Theorem update_without_match
  (w : world) (C : string) (P : predicate) (u : mutator)
  (items : list val) :
  as_array (heap w) (collection w C) = Some items ->
  (forall x, x ∈ items -> P (heap w) x = false) ->
  let w' := (update C (Some P) u w).2 in
  (update C (Some P) u w).1 = Fulfilled tt /\
  heap w' = heap w /\ data w' = data w /\ files w' = files w /\
  C ∈ modifiedCollections w'.
Proof.
  intros Hc Hno w'. subst w'. rewrite (update_eq w C _ u items Hc).
  cbn [fst snd markCollectionAsModified heap data files modifiedCollections].
  split; [reflexivity|]. split; [by apply update_none|].
  split; [reflexivity|]. split; [reflexivity|].
  apply elem_of_set_add. by left.
Qed.

Lemma update_without_match_witness :
  let w' := (update "users" (Some Sample.never) Sample.birthday
               Sample.loaded).2 in
  heap w' = heap Sample.loaded /\ "users" ∈ modifiedCollections w'.
Proof.
  destruct (update_without_match Sample.loaded "users" Sample.never
              Sample.birthday [VRef 0; VRef 1]) as (_ & Hh & _ & _ & Hm);
    [reflexivity|reflexivity|].
  split; [exact Hh|exact Hm].
Defined.

Lemma update_step_lookup P u h x l :
  x <> VRef l -> update_step P u h x !! l = h !! l.
Proof.
  intros Hne. unfold update_step. destruct (P h x); [|reflexivity].
  by apply mutate_frame.
Qed.

Lemma update_records P u : local P -> forall items h l fs,
  NoDup items ->
  VRef l ∈ items ->
  h !! l = Some (ORec fs) ->
  foldl (update_step P u) h items !! l
  = Some (ORec (if P h (VRef l) then u fs else fs)).
Proof.
  intros Hloc items.
  induction items as [|x items IH]; intros h l fs Hnd Hin Hl; simpl.
  - by apply elem_of_nil in Hin.
  - apply NoDup_cons in Hnd as [Hx Hnd].
    apply elem_of_cons in Hin as [<-|Hin].
    + destruct (update_frame P u items (update_step P u h (VRef l)))
        as (_ & _ & Hfr).
      rewrite Hfr by done. unfold update_step, mutate. rewrite Hl.
      destruct (P h (VRef l)); [|exact Hl].
      apply list_lookup_insert_eq. by eapply lookup_lt_Some.
    + assert (Hne : x <> VRef l) by (by intros ->).
      pose proof (update_step_lookup P u h x l Hne) as Hs.
      rewrite (IH _ l fs Hnd Hin) by (by rewrite Hs).
      by rewrite (Hloc _ h l Hs).
Qed.

(** X4: [update] keeps the sequence of the collection and writes to its
    records in place.  When no record is in the collection twice and the
    predicate looks at nothing but the record it is given, every record that
    satisfies the predicate gets the members the update function gives it,
    and every other record keeps its members. *)
Theorem update_rewrites_matching_records
  (w : world) (C : string) (f : option predicate) (u : mutator)
  (items : list val) :
  as_array (heap w) (collection w C) = Some items ->
  NoDup items ->
  local (default always f) ->
  let w' := (update C f u w).2 in
  as_array (heap w') (collection w' C) = Some items /\
  (forall l fs,
      VRef l ∈ items ->
      heap w !! l = Some (ORec fs) ->
      heap w' !! l
      = Some (ORec (if default always f (heap w) (VRef l)
                    then u fs else fs))).
Proof.
  intros Hc Hnd Hloc w'. subst w'. rewrite (update_eq w C f u items Hc).
  cbn [snd]. split.
  - change (collection (markCollectionAsModified C _) C) with (collection w C).
    destruct (as_array_Some _ _ _ Hc) as (l & Hv & Hl). rewrite Hv. simpl.
    destruct (update_frame (default always f) u items (heap w))
      as (_ & Harr & _).
    by rewrite (Harr l items Hl).
  - intros l fs Hin Hl. by apply update_records.
Qed.

Lemma named_local name : local (Sample.named name).
Proof. intros h h' l E. unfold Sample.named, get. by rewrite E. Qed.

Lemma update_rewrites_matching_records_witness :
  let w' := (update "users" (Some (Sample.named "Jane")) Sample.birthday
               Sample.loaded).2 in
  heap w' !! 1 = Some (ORec [("name", VStr "Jane"); ("age", VNum 30)]) /\
  heap w' !! 0 = Some (ORec [("name", VStr "John"); ("age", VNum 29)]).
Proof.
  destruct (update_rewrites_matching_records Sample.loaded "users"
              (Some (Sample.named "Jane")) Sample.birthday [VRef 0; VRef 1])
    as [_ Hrec].
  - reflexivity.
  - apply NoDup_cons. split; [|apply NoDup_singleton].
    intros H. apply list_elem_of_singleton in H. discriminate.
  - apply named_local.
  - split.
    + apply (Hrec 1 [("name", VStr "Jane"); ("age", VNum 29)]);
        [|reflexivity]. repeat constructor.
    + apply (Hrec 0 [("name", VStr "John"); ("age", VNum 29)]);
        [|reflexivity]. repeat constructor.
Defined.

End Update.

(** ** File names *)

Section FileNames.

(** X5: for a name without path separator, [path.join] makes the file of
    the collection the entry [name.json] of the directory itself; the name
    [load] derives from that entry is the name of the collection, and no
    other name without separator has this file.  A name with a separator
    can share it: the file of [./name] is the file of [name]. *)
Theorem file_name_roundtrip (n : string) :
  Fs.has_sep n = false ->
  file_of n = n +:+ ".json" /\
  Fs.strip_suffix ".json" (file_of n) = Some n /\
  (forall m, Fs.has_sep m = false -> file_of m = file_of n -> m = n) /\
  file_of ("./" +:+ n) = file_of n.
Proof.
  intros Hn. pose proof (file_of_plain n Hn) as Hf.
  split; [exact Hf|]. split; [rewrite Hf; apply strip_suffix_append|].
  split; [intros m Hm E; by apply file_of_inj|].
  rewrite Hf. unfold file_of, Fs.join.
  assert (Hs : Fs.has_sep (n +:+ ".json") = false).
  { rewrite has_sep_append. simpl. by rewrite Hn. }
  change (("./" +:+ n) +:+ ".json")
    with (String "." (String "/" (n +:+ ".json"))).
  cbn [Fs.segments]. rewrite (segments_single _ Hs).
  change (Ascii.eqb "/" "/") with true. change (Ascii.eqb "." "/") with false.
  cbn [foldl]. change (Fs.resolve [] ".") with (@nil string).
  pose proof (join_single _ Hs (entry_name_json n)) as Hj.
  unfold Fs.join in Hj. rewrite (segments_single _ Hs) in Hj. exact Hj.
Qed.

Lemma file_name_roundtrip_witness :
  file_of "users" = "users.json" /\ file_of "./users" = "users.json".
Proof.
  destruct (file_name_roundtrip "users") as (Hf & _ & _ & Ha); [reflexivity|].
  split; [exact Hf|exact (eq_trans Ha Hf)].
Defined.

End FileNames.

(** ** Save and drop *)

Section SaveDrop.

Variable write_fails : string -> bool.
Variable depth : nat.

Local Abbreviation flush := (Dire.flush write_fails depth).
Local Abbreviation save := (Dire.save write_fails depth).
Local Abbreviation flushes := (Dire.flushes write_fails depth).

(** X6: whether it gets through or not, [save] with a modified set of
    names without path separator writes to no file, in the directory or
    below it, but the files [name.json] of the collections of the modified
    set, and changes nothing in memory but that set. *)
Theorem save_touches_modified_only (w : world) (f : string) :
  Forall (fun n => Fs.has_sep n = false) (modifiedCollections w) ->
  (forall n, n ∈ modifiedCollections w -> f <> n +:+ ".json") ->
  Fs.readFile f (files (save w)) = Fs.readFile f (files w) /\
  heap (save w) = heap w /\ data (save w) = data w.
Proof.
  intros Hs Hf.
  split; [|by destruct (save_memory write_fails depth w) as (? & ? & _)].
  apply save_other. intros (n & -> & Hn)%list_elem_of_fmap.
  rewrite Forall_forall in Hs. apply (Hf n Hn). by apply file_of_plain, Hs.
Qed.

(** X7: when the collections of the modified set have plain names and each
    can be written, [save] leaves every one of them in its file, as the
    object whose one member is the collection, empties the modified set and
    logs nothing; a second [save] then does nothing. *)
Theorem save_writes_all_and_settles (w : world) :
  forallb plain (modifiedCollections w) = true ->
  intact w ->
  flushes w = true ->
  (forall n, n ∈ modifiedCollections w ->
             Fs.readFile (n +:+ ".json") (files (save w))
             = Fs.Document <$> wrapper depth (heap w) n (collection w n)) /\
  modifiedCollections (save w) = [] /\
  console (save w) = console w /\
  save (save w) = save w.
Proof.
  intros Hp _ Hf. apply Forall_plain_sep in Hp.
  destruct (save_flushes write_fails depth w Hp Hf)
    as (Hm & Hc & Hh & Hd & _ & Hfs & Hok).
  split; [|split; [done|split; [done|]]].
  - intros n Hn. rewrite Hfs, <- file_of_plain.
    + by apply flush_written.
    + rewrite Forall_forall in Hp. by apply Hp.
  - unfold Dire.save at 1. rewrite Hm. simpl.
    destruct (save w) as [h d m b fs c]. simpl in Hm. by subst m.
Qed.

End SaveDrop.

Section Drop.

(** X8: [drop] of a plain name takes the collection out of memory and its
    file out of the directory at once, so that a [find] on it is rejected
    (as long as [this.data] has the prototype it was created with); it
    leaves every other binding, every other file, the heap and the modified
    set as they are, and logs an error exactly when there was no such file
    to delete (a file that is there is taken to be deleted). *)
Theorem drop_removes_collection_and_file (w : world) (C : string) :
  plain C = true ->
  intact w ->
  let w' := drop C w in
  data w' !! C = None /\
  Fs.readFile (C +:+ ".json") (files w') = None /\
  (forall f, find C f w' = (Rejected, w')) /\
  (forall M, M <> C -> data w' !! M = data w !! M) /\
  (forall f, f <> C +:+ ".json" ->
             Fs.readFile f (files w') = Fs.readFile f (files w)) /\
  heap w' = heap w /\
  modifiedCollections w' = modifiedCollections w /\
  console w'
  = match Fs.readFile (C +:+ ".json") (files w) with
    | Some _ => console w
    | None => console w ++ [UnlinkError]
    end.
Proof.
  intros HC _ w'. subst w'.
  rewrite <- (file_of_plain C (plain_sep C HC)).
  assert (Hd : data (drop C w) = base.delete C (data w)).
  { unfold drop. by destruct (Fs.readFile _ _). }
  assert (Hn : data (drop C w) !! C = None)
    by (rewrite Hd; apply lookup_delete_eq).
  split; [exact Hn|]. split; [apply drop_file|].
  split; [|split; [|split; [|split; [|split]]]].
  - intros f. unfold find, collection. by rewrite Hn.
  - intros M Hne. by rewrite Hd, lookup_delete_ne.
  - intros f Hne. unfold drop.
    destruct (Fs.readFile (file_of C) (files w)); simpl; [|done].
    apply readFile_unlink_ne. congruence.
  - unfold drop. by destruct (Fs.readFile (file_of C) (files w)).
  - apply drop_modified.
  - unfold drop. by destruct (Fs.readFile (file_of C) (files w)).
Qed.

End Drop.

Section SaveDropSamples.
Import Sample.

Lemma save_touches_modified_only_witness :
  let w := add "pets" (Some petsData) with_pets in
  Fs.readFile "users.json" (files (save accepts_all depth w))
  = Fs.readFile "users.json" (files w).
Proof.
  intros w.
  destruct (save_touches_modified_only accepts_all depth w "users.json")
    as [Hf _]; [by repeat constructor| |exact Hf].
  intros n ->%list_elem_of_singleton. discriminate.
Defined.

Lemma save_writes_all_and_settles_witness :
  let w := add "pets" (Some petsData) with_pets in
  modifiedCollections (save accepts_all depth w) = [] /\
  Fs.readFile "pets.json" (files (save accepts_all depth w))
  = Some (Fs.Document (JObj [("pets", pets)])).
Proof.
  intros w.
  destruct (save_writes_all_and_settles accepts_all depth w)
    as (Hw & Hm & _); [reflexivity..|].
  split; [exact Hm|].
  exact (Hw "pets" ltac:(by apply list_elem_of_singleton)).
Defined.

Lemma drop_removes_collection_and_file_witness :
  data (drop "users" loaded) !! "users" = None /\
  Fs.readFile "users.json" (files (drop "users" loaded)) = None /\
  Fs.readFile "README.md" (files (drop "users" loaded))
  = Some Fs.Unparsable.
Proof.
  destruct (drop_removes_collection_and_file loaded "users")
    as (Hd & Hf & _ & _ & Ho & _); [reflexivity..|].
  split; [exact Hd|]. split; [exact Hf|].
  exact (eq_trans (Ho "README.md" ltac:(discriminate)) eq_refl).
Defined.

End SaveDropSamples.

(** ** Load *)

Section Load.

(** X9: on a directory that can be listed, [load] gets through exactly when
    every entry of the directory with a name in [.json] is a file that
    parses to something other than [null]
    (entries with another name are not looked at, so an empty directory
    will do, and a sub-directory with a name in [.json] will not): it then
    sets the loaded flag; otherwise it logs an error and leaves the flag as
    it was.  Either way it leaves the directory and the modified set as
    they are. *)
Theorem load_outcome (w : world) :
  let ok := forallb (readable (files w)) (Fs.readdir (files w)) in
  isLoaded (load w) = ok || isLoaded w /\
  console (load w) = (if ok then console w else console w ++ [LoadError]) /\
  files (load w) = files w /\
  modifiedCollections (load w) = modifiedCollections w.
Proof.
  intros ok. subst ok.
  rewrite <- (load_files_ok _ _ (heap w) (data w)).
  unfold load. by destruct (load_files _ _ _ _) as [[h d] []].
Qed.

(** X20: an entry of the directory with a name in [.json] that is not a
    file (a sub-directory) stops [load]: an error is logged and the loaded
    flag is left as it was. *)
Theorem load_stops_at_sub_directory (w : world) (f name : string) :
  f ∈ Fs.readdir (files w) ->
  Fs.strip_suffix ".json" f = Some name ->
  Fs.readFile f (files w) = None ->
  isLoaded (load w) = isLoaded w /\
  console (load w) = console w ++ [LoadError] /\
  files (load w) = files w.
Proof.
  intros Hf Hs Hr.
  assert (Hok : forallb (readable (files w)) (Fs.readdir (files w)) = false).
  { destruct (forallb _ _) eqn:E; [|done].
    rewrite forallb_forall in E.
    specialize (E f (proj1 (list_elem_of_In _ _) Hf)).
    unfold readable in E. by rewrite Hs, (listed_join f _ Hf), Hr in E. }
  rewrite <- (load_files_ok _ _ (heap w) (data w)) in Hok.
  unfold load. destruct (load_files _ _ _ _) as [[h d] ok].
  simpl in Hok. by subst ok.
Qed.

(** X10: [load] does not start from an empty store.  It rebinds the names
    that have an entry [name.json] in the directory and no other (as long
    as there is no entry [__proto__.json], which would replace the
    prototype of [this.data]), so a collection without a file stays in
    memory; and it allocates but writes to no object that is there. *)
Theorem load_keeps_collections_without_file (w : world) (n : string) :
  (n +:+ ".json") ∉ Fs.readdir (files w) ->
  "__proto__.json" ∉ Fs.readdir (files w) ->
  data (load w) !! n = data w !! n /\
  collection (load w) n = collection w n /\
  (forall l o, heap w !! l = Some o -> heap (load w) !! l = Some o).
Proof.
  intros Hn _.
  pose proof (load_files_unlisted (Fs.readdir (files w)) (files w) n
                (heap w) (data w) Hn) as Hu.
  pose proof (load_files_prefix (Fs.readdir (files w)) (files w)
                (heap w) (data w)) as Hp.
  assert (Hd : data (load w) !! n = data w !! n).
  { unfold load. by destruct (load_files _ _ _ _) as [[h d] []]. }
  split; [exact Hd|]. split; [by apply collection_data|].
  intros l o Hl. unfold load.
  destruct (load_files _ _ _ _) as [[h d] []]; simpl in *;
    by eapply prefix_lookup_Some.
Qed.

(** X11: when [load] gets through, the collection with a plain name whose
    file holds the object with the collection as its one member is bound to
    that very JSON value, whatever the name was bound to in memory
    before. *)
Theorem load_installs_file_content (w : world) (C : string) (j : json) :
  forallb (readable (files w)) (Fs.readdir (files w)) = true ->
  plain C = true ->
  Fs.readFile (C +:+ ".json") (files w)
  = Some (Fs.Document (JObj [(C, j)])) ->
  denotes (heap (load w)) (collection (load w) C) j /\
  isLoaded (load w) = true.
Proof.
  intros Hok HC Hfile. pose proof (plain_sep C HC) as Hsep.
  rewrite <- (file_of_plain C Hsep) in Hfile.
  destruct (load_bound w C (JObj [(C, j)]) (fun h v => denotes h v j))
    as (Hl & v & Hd & Hq); try done.
  - intros h h' v. apply denotes_stable.
  - apply wrapper_member.
  - split; [|done]. unfold collection. by rewrite Hd.
Qed.

Lemma field_absent k (fs : list (string * val)) :
  k ∉ fs.*1 -> field k fs = VUndef.
Proof.
  induction fs as [|[k' v] fs IH]; simpl; [done|].
  intros Hk. apply not_elem_of_cons in Hk as [Hne Hk].
  destruct (String.eqb_spec k' k); [congruence|by apply IH].
Qed.

Lemma revive_members_keys ms : forall h, (revive_members ms h).1.*1 = ms.*1.
Proof.
  induction ms as [|[k j] ms IH]; intros h; simpl; [done|].
  destruct (revive j h) as [v h1]. specialize (IH h1).
  destruct (revive_members ms h1) as [fs h2]. simpl in *. by f_equal.
Qed.

(** X12: when [load] gets through and the file of a collection with a plain
    name holds an object without a member of that name (as the object
    without members that [save] writes for a name bound to nothing), the
    name is bound, to something that is not an array ([undefined], or a
    function the object inherits), and a [find] on it is rejected. *)
Theorem load_file_without_member
  (w : world) (C : string) (ms : list (string * json)) :
  forallb (readable (files w)) (Fs.readdir (files w)) = true ->
  plain C = true ->
  Fs.readFile (C +:+ ".json") (files w) = Some (Fs.Document (JObj ms)) ->
  C ∉ ms.*1 ->
  is_Some (data (load w) !! C) /\
  as_array (heap (load w)) (collection (load w) C) = None /\
  (forall f, find C f (load w) = (Rejected, load w)).
Proof.
  intros Hok HC Hfile Hno. pose proof (plain_sep C HC) as Hsep.
  rewrite <- (file_of_plain C Hsep) in Hfile.
  destruct (load_bound w C (JObj ms) (fun _ v => v = VUndef))
    as (_ & v & Hd & ->); try done.
  - intros h. rewrite revive_object.
    pose proof (revive_members_keys ms h) as Hk.
    destruct (revive_members ms h) as [fs h1]. cbn [fst snd] in *.
    rewrite get_new_record.
    exists VUndef. split; [|done]. f_equal. apply field_absent. by rewrite Hk.
  - split; [by eexists|]. unfold find, collection. rewrite Hd. done.
Qed.

End Load.

Section LoadSamples.
Import Sample.

Lemma load_keeps_collections_without_file_witness :
  let w := add "pets" (Some petsData) with_pets in
  data (load w) !! "pets" = Some petsData.
Proof.
  intros w.
  destruct (load_keeps_collections_without_file w "pets") as [Hd _];
    [| |exact Hd].
  - intros H. vm_compute in H.
    apply elem_of_cons in H as [H|H]; [discriminate|].
    apply list_elem_of_singleton in H. discriminate.
  - intros H. vm_compute in H.
    apply elem_of_cons in H as [H|H]; [discriminate|].
    apply list_elem_of_singleton in H. discriminate.
Defined.

Lemma load_stops_at_sub_directory_witness :
  Fs.readdir (files with_sub_directory)
  = ["users.json"; "README.md"; "archive.json"] /\
  isLoaded (load with_sub_directory) = false /\
  console (load with_sub_directory) = [LoadError].
Proof.
  split; [reflexivity|].
  destruct (load_stops_at_sub_directory with_sub_directory "archive.json"
              "archive") as (Hl & Hc & _); [|reflexivity|reflexivity|].
  - vm_compute. repeat constructor.
  - split; [exact Hl|exact Hc].
Defined.

(** The users are loaded over what is bound to the name in memory. *)
Lemma load_installs_file_content_witness :
  let w := add "users" (Some petsData) with_pets in
  denotes (heap (load w)) (collection (load w) "users") users.
Proof.
  intros w.
  destruct (load_installs_file_content w "users" users) as [Hd _];
    [reflexivity..|exact Hd].
Defined.

(** The store after pets was added, dropped while modified, and saved, as
    a new instance finds it. *)
Lemma load_file_without_member_witness :
  let w :=
    new (run accepts_all depth
           [AddCall "pets" (Some petsData); DropCall "pets"; SaveCall]
           with_pets) in
  find "pets" None (load w) = (Rejected, load w).
Proof.
  intros w.
  destruct (load_file_without_member w "pets" []) as (_ & _ & Hf);
    [reflexivity..|apply not_elem_of_nil|].
  apply Hf.
Defined.

End LoadSamples.

(** ** Save, then load *)

Section Restore.

Variable write_fails : string -> bool.
Variable depth : nat.

Local Abbreviation save := (Dire.save write_fails depth).
Local Abbreviation flushes := (Dire.flushes write_fails depth).

(** X13: when the names of the modified set have no path separator,
    [this.data] has the prototype it was created with, [save] can write
    every collection of the set, and every entry of the directory with a
    name in [.json] is a file that parses to something other than [null],
    every modified collection is, in a new instance that loads the
    directory (in this process or another), structurally equal to what it
    was in memory at the time of the [save]. *)
Theorem save_load_restores_modified
  (w : world) (n : string) (j : json) :
  Forall (fun m => Fs.has_sep m = false) (modifiedCollections w) ->
  intact w ->
  flushes w = true ->
  forallb (readable (files w)) (Fs.readdir (files w)) = true ->
  n ∈ modifiedCollections w ->
  denotes (heap w) (collection w n) j ->
  forall h,
    let w' := load (new_in h (save w)) in
    denotes (heap w') (collection w' n) j /\ isLoaded w' = true.
Proof.
  intros Hp _ Hflush Hload Hn Hj h. by apply save_load_bound.
Qed.

End Restore.

Section RestoreSamples.
Import Sample.

(** The users come back a year older after an update of all of them. *)
Lemma save_load_restores_modified_witness :
  let w := (update "users" None birthday loaded).2 in
  let w' := load (new (save accepts_all depth w)) in
  denotes (heap w') (collection w' "users")
    (JArr [person "John" 30; person "Jane" 30]).
Proof.
  intros w w'.
  destruct (save_load_restores_modified accepts_all depth w "users"
              (JArr [person "John" 30; person "Jane" 30]))
    with (h := heap (save accepts_all depth w)) as [Hd _];
    [by repeat constructor|reflexivity|reflexivity|reflexivity|
     by apply list_elem_of_singleton| |exact Hd].
  eapply denotes_arr; [reflexivity|].
  repeat constructor; (eapply denotes_obj; [reflexivity|repeat constructor]).
Defined.

End RestoreSamples.

(** ** How the calls compose *)

Section Compose.

(** X14: [add] without items makes the collection a new empty array, and
    an [insert] then a [find] without predicate return exactly the items
    that were inserted, in the order given, whatever the name was bound to
    before. *)
Theorem add_insert_find (w : world) (C : string) (items : val) :
  let w1 := add C None w in
  let w2 := (insert C items w1).2 in
  as_array (heap w1) (collection w1 C) = Some [] /\
  exists l,
    (find C None w2).1 = Fulfilled (VRef l) /\
    as_array (heap (find C None w2).2) (VRef l)
    = Some (pushed (heap w1) items).
Proof.
  intros w1 w2.
  assert (Hc : collection w1 C = VRef (length (heap w))).
  { unfold w1. rewrite add_eq_default by auto.
    change (collection (markCollectionAsModified C ?x) C) with (collection x C).
    apply collection_insert_eq. }
  assert (Hh : heap w1 = heap w ++ [OArr []])
    by (unfold w1; by rewrite add_eq_default by auto).
  assert (Hl : heap w1 !! length (heap w) = Some (OArr [])).
  { rewrite Hh. by rewrite lookup_app_r, Nat.sub_diag by lia. }
  split; [by rewrite Hc; cbn [as_array]; rewrite Hl|].
  assert (Hc2 : as_array (heap w2) (collection w2 C)
                = Some (pushed (heap w1) items)).
  { unfold w2. rewrite (insert_eq w1 C items _ [] Hc Hl). cbn [snd].
    change (collection (markCollectionAsModified C ?x) C) with (collection x C).
    unfold collection at 1. cbn [data]. fold (collection w1 C). rewrite Hc.
    cbn [as_array heap markCollectionAsModified].
    rewrite list_lookup_insert_eq; [done|]. by eapply lookup_lt_Some. }
  rewrite (find_eq w2 C None _ Hc2). cbn [fst snd heap].
  eexists. split; [reflexivity|]. simpl.
  rewrite lookup_app_r, Nat.sub_diag by lia. simpl.
  by rewrite filter_always.
Qed.

(** X15: [add] with an array replaces the collection wholesale: whatever
    the name was bound to, a [find] without predicate then returns the items
    of that array and nothing else.  The collection is that very array, not
    a copy of it. *)
Theorem add_replaces_collection
  (w : world) (C : string) (v : val) (items : list val) :
  as_array (heap w) v = Some items ->
  let w' := add C (Some v) w in
  collection w' C = v /\ heap w' = heap w /\
  C ∈ modifiedCollections w' /\
  exists l,
    (find C None w').1 = Fulfilled (VRef l) /\
    as_array (heap (find C None w').2) (VRef l) = Some items.
Proof.
  intros Hv w'. subst w'.
  assert (Hne : v <> VUndef) by (by intros ->).
  rewrite (add_eq_given w C v Hne).
  change (collection (markCollectionAsModified C ?x) C) with (collection x C).
  rewrite collection_insert_eq. split; [done|]. split; [done|].
  split; [apply elem_of_set_add; by left|].
  erewrite find_eq.
  2:{ change (collection (markCollectionAsModified C ?x) C)
        with (collection x C).
      rewrite collection_insert_eq. exact Hv. }
  cbn [fst snd heap markCollectionAsModified].
  eexists. split; [reflexivity|]. simpl.
  rewrite lookup_app_r, Nat.sub_diag by lia. simpl.
  by rewrite filter_always.
Qed.

(** X16: the array [find] is fulfilled with is a new object, which nothing
    in the world refers to: whatever the caller then makes of that object,
    the collection keeps its sequence of records. *)
Theorem find_result_is_fresh
  (w : world) (C : string) (f : option predicate) (items : list val) :
  as_array (heap w) (collection w C) = Some items ->
  exists l,
    (find C f w).1 = Fulfilled (VRef l) /\
    heap w !! l = None /\
    collection w C <> VRef l /\
    forall o,
      as_array (<[l := o]> (heap (find C f w).2)) (collection w C)
      = Some items.
Proof.
  intros Hc. rewrite (find_eq w C f items Hc). cbn [fst snd heap].
  exists (length (heap w)). split; [reflexivity|].
  assert (Hn : heap w !! length (heap w) = None) by (by apply lookup_ge_None).
  destruct (as_array_Some _ _ _ Hc) as (l & Hv & Hl).
  assert (Hne : l <> length (heap w)) by (intros ->; congruence).
  split; [exact Hn|]. split; [rewrite Hv; congruence|].
  intros o. rewrite Hv. simpl.
  rewrite list_lookup_insert_ne by done.
  by rewrite (lookup_app_l_Some _ _ _ _ Hl).
Qed.


Lemma find_head_filter {A} (f : A -> bool) (xs : list A) :
  List.find f xs = head (List.filter f xs).
Proof.
  induction xs as [|x xs IH]; simpl; [reflexivity|].
  by destruct (f x).
Qed.

(** X18: on a collection of records, [findOne] is fulfilled with the first
    record of what [find] is fulfilled with for the same predicate, and with
    null when that is empty. *)
Theorem findOne_is_first_of_find
  (w : world) (C : string) (P : predicate) (items : list val) :
  as_array (heap w) (collection w C) = Some items ->
  forallb is_record items = true ->
  exists l found,
    (find C (Some P) w).1 = Fulfilled (VRef l) /\
    as_array (heap (find C (Some P) w).2) (VRef l) = Some found /\
    (findOne C (Some P) w).1 = Fulfilled (default VNull (head found)).
Proof.
  intros Hc Hrec.
  rewrite (find_eq w C _ items Hc), (findOne_eq w C P items Hc).
  cbn [fst snd heap default].
  change (from_option id always (Some P)) with P.
  exists (length (heap w)), (List.filter (P (heap w)) items).
  split; [reflexivity|]. split; [apply as_array_alloc|].
  rewrite find_head_filter.
  destruct (List.filter (P (heap w)) items) as [|r found] eqn:Hf; simpl;
    [reflexivity|].
  assert (Hin : In r items).
  { apply (proj1 (filter_In (P (heap w)) r items)). rewrite Hf. by left. }
  pose proof (proj1 (forallb_forall _ _) Hrec r Hin) as Hr.
  by destruct r.
Qed.

End Compose.

(** ** Drop, save, and a new instance *)

Section Durable.

Variable write_fails : string -> bool.
Variable depth : nat.

Local Abbreviation save := (Dire.save write_fails depth).

(** X19: a collection with a plain name that is not in the modified set is
    gone for good once it is dropped, when the names of the modified set are
    plain and the directory has no sub-directory of the name of its file and
    no entry [__proto__.json]: the [save] that follows does not write its
    file again, and a new instance that loads the directory (in this
    process or another) has no such collection, so that a [find] on it is
    rejected. *)
Theorem drop_is_durable_when_unmodified (w : world) (C : string) :
  plain C = true ->
  forallb plain (modifiedCollections w) = true ->
  Fs.is_dir (C +:+ ".json") (files w) = false ->
  "__proto__.json" ∉ Fs.readdir (files w) ->
  C ∉ modifiedCollections w ->
  ((C +:+ ".json") ∉ Fs.readdir (files (save (drop C w)))) /\
  forall h,
    let w' := load (new_in h (save (drop C w))) in
    data w' !! C = None /\ forall f, find C f w' = (Rejected, w').
Proof.
  intros HC Hp Hdir _ Hc. pose proof (plain_sep C HC) as Hsep.
  rewrite <- (file_of_plain C Hsep) in *.
  destruct (drop_save_removes_file write_fails depth w C Hsep
              (Forall_plain_sep _ Hp) Hdir Hc) as [_ Hn].
  split; [exact Hn|]. intros h w'.
  assert (Hd : data w' !! C = None).
  { rewrite file_of_plain in Hn by done.
    pose proof (load_files_unlisted _ (files (save (drop C w))) C h ∅ Hn)
      as Hu.
    subst w'. unfold load, new_in. cbn [files heap data].
    by destruct (load_files _ _ _ _) as [[h1 d] []]. }
  split; [exact Hd|]. intros f. unfold find, collection. by rewrite Hd.
Qed.

End Durable.

Section ComposeSamples.
Import Sample.

Lemma add_replaces_collection_witness :
  collection (add "users" (Some petsData) with_pets) "users" = petsData.
Proof.
  destruct (add_replaces_collection with_pets "users" petsData
              [VRef 4; VRef 5]) as [Hc _]; [reflexivity|exact Hc].
Defined.

Lemma find_result_is_fresh_witness :
  exists l,
    (find "users" None loaded).1 = Fulfilled (VRef l) /\
    as_array (<[l := OArr []]> (heap (find "users" None loaded).2))
      (collection loaded "users") = Some [VRef 0; VRef 1].
Proof.
  destruct (find_result_is_fresh loaded "users" None [VRef 0; VRef 1])
    as (l & Hf & _ & _ & Hk); [reflexivity|].
  exists l. split; [exact Hf|apply Hk].
Defined.


Lemma findOne_is_first_of_find_witness :
  exists l found,
    (find "users" (Some always) loaded).1 = Fulfilled (VRef l) /\
    as_array (heap (find "users" (Some always) loaded).2) (VRef l)
    = Some found /\
    (findOne "users" (Some always) loaded).1
    = Fulfilled (default VNull (head found)).
Proof.
  apply (findOne_is_first_of_find loaded "users" always [VRef 0; VRef 1]);
    reflexivity.
Defined.

Lemma drop_is_durable_when_unmodified_witness :
  data (load (new (save accepts_all depth (drop "users" loaded)))) !! "users"
  = None.
Proof.
  destruct (drop_is_durable_when_unmodified accepts_all depth loaded "users")
    as [_ Hd]; [reflexivity|reflexivity|reflexivity| |apply not_elem_of_nil|].
  - intros H. vm_compute in H.
    apply elem_of_cons in H as [H|H]; [discriminate|].
    apply list_elem_of_singleton in H. discriminate.
  - apply (Hd (heap (save accepts_all depth (drop "users" loaded)))).
Defined.

End ComposeSamples.
